(** * EmbeddedProto: the bounded string/bytes field (FieldStringBytes.h)

    A shallow embedding of [EmbeddedProto::internal::FieldStringBytes],
    [EmbeddedProto::FieldString] and [EmbeddedProto::FieldBytes], and the
    properties of their length-delimited wire encoding.

    Conventions.
    - [uint32_t] values are [Z]; every place where the C++ arithmetic can
      wrap applies [uint32] explicitly.
    - [uint8_t] and [char] elements are [byte]s (a [char] is represented by
      its bit pattern, which is what [memcpy], [push] and the [static_cast]
      in [deserialize] transport).
    - [std::array<DATA_TYPE, MAX_LENGTH>] is a [list byte]; that its size
      stays [MAX_LENGTH] is a theorem, not a typing fact.
    - A pointer argument is the list of elements readable from it.  Reading
      more elements than that is undefined in C++; the theorems that depend
      on the copied content assume the source is long enough. *)

From Stdlib Require Import ZArith Lia Bool.
From Stdlib Require Import Init.Byte.
From coqutil Require Import Byte.
From stdpp Require Import base list.

Local Open Scope Z_scope.

(** ** Machine integers *)

(** Conversion to [uint32_t]. *)
Definition uint32 (z : Z) : Z := z mod 2 ^ 32.

(** The values a [uint32_t] can hold. *)
Definition is_uint32 (z : Z) : Prop := 0 <= z < 2 ^ 32.

#[global] Instance byte_inhabited : Inhabited byte := populate x00.

#[global] Instance byte_eq_decision : EqDecision byte := Byte.byte_eq_dec.

(** ** Errors.h *)

(** Modelled from the spec: Errors.h is not among the sources; these are the
    error kinds of section 7, which are also all the kinds the field uses. *)
Inductive Error : Set :=
  | NO_ERRORS
  | END_OF_BUFFER
  | BUFFER_FULL
  | INVALID_WIRETYPE
  | ARRAY_FULL
  | INDEX_OUT_OF_BOUND.

#[global] Instance Error_eq_dec : EqDecision Error.
Proof. solve_decision. Defined.

(** ** The transport interfaces *)

(** Modelled from the spec: WriteBufferInterface.h is not among the sources.
    Section 6 gives the output transport two operations, [push(bytes, length)]
    reporting success or failure and [get_available_size()].  The pushed
    bytes are passed as the list of the [length] bytes at the pointer. *)
Class WriteBufferInterface (W : Type) := {
  get_available_size : W -> Z;
  push : W -> list byte -> bool * W
}.

(** Modelled from the spec: ReadBufferInterface.h is not among the sources.
    Section 6 gives the input transport one operation, [pop(out byte)], which
    fails when the transport is exhausted. *)
Class ReadBufferInterface (R : Type) := {
  pop : R -> option byte * R
}.

(** ** WireFormatter *)

Module WireFormatter.

(** Modelled from the spec: WireFormatter.h is not among the sources.  The
    wire types are those named in section 6, with the protobuf codes. *)
Inductive WireType : Set :=
  | VARINT
  | FIXED64
  | LENGTH_DELIMITED
  | FIXED32.

(** Modelled from the spec: the protobuf code of a wire type. *)
Definition code (t : WireType) : Z :=
  match t with
  | VARINT => 0
  | FIXED64 => 1
  | LENGTH_DELIMITED => 2
  | FIXED32 => 5
  end.

#[global] Instance WireType_eq_dec : EqDecision WireType.
Proof. solve_decision. Defined.

(** Modelled from the spec: [MakeTag] is not among the sources.  Section 6:
    [tag = (field_number << 3) | wire_type_code], a [uint32_t]. *)
Definition MakeTag (field_number : Z) (type : WireType) : Z :=
  uint32 (Z.lor (Z.shiftl field_number 3) (code type)).

(** Modelled from the spec: the varint encoding is not among the sources.
    Protobuf's encoding: the base-128 groups of [value], least significant
    first, each but the last with its top bit set; [n] bounds the number of
    continuation bytes. *)
Fixpoint varint_bytes (n : nat) (value : Z) : list byte :=
  match n with
  | O => [byte.of_Z value]
  | S n' =>
      if value <? 128 then [byte.of_Z value]
      else byte.of_Z (Z.lor (Z.land value 127) 128)
             :: varint_bytes n' (Z.shiftr value 7)
  end.

(** Modelled from the spec: the encoding of a [uint32_t], which has at most
    five groups of seven bits. *)
Definition encode_varint (value : Z) : list byte := varint_bytes 4 value.

Section Codec.
Context {W R : Type} `{!WriteBufferInterface W} `{!ReadBufferInterface R}.

(** Modelled from the spec: [SerializeVarint] is not among the sources.
    It writes protobuf's variable-length encoding of [value] to the
    output transport and reports [BUFFER_FULL] when the transport
    rejects it. *)
Definition SerializeVarint (value : Z) (buffer : W) : Error * W :=
  let '(ok, buffer') := push buffer (encode_varint value) in
  (if ok then NO_ERRORS else BUFFER_FULL, buffer').

(** Modelled from the spec: the varint decoding is not among the sources.
    Reads groups until one comes without continuation bit.  [n] bounds the
    number of groups still allowed after this one, [shift] is the position
    of the next group and [temp_value] what was read so far. *)
Fixpoint read_varint (n : nat) (shift temp_value : Z) (buffer : R)
  : Error * Z * R :=
  match pop buffer with
  | (None, buffer') => (END_OF_BUFFER, 0, buffer')
  | (Some b, buffer') =>
      let temp_value' :=
        uint32 (Z.lor temp_value
                  (Z.shiftl (Z.land (byte.unsigned b) 127) shift)) in
      if byte.unsigned b <? 128 then (NO_ERRORS, temp_value', buffer')
      else
        match n with
        | O => (END_OF_BUFFER, 0, buffer')
        | S n' => read_varint n' (shift + 7) temp_value' buffer'
        end
  end.

(** Modelled from the spec: [DeserializeVarint] is not among the sources.
    It reads protobuf's variable-length encoding of a [uint32_t] from the
    input transport: at most five bytes.  The spec names one failure of
    the input side, [END_OF_BUFFER]; it is used both when the transport
    is exhausted and when the fifth byte still asks for more.  On failure
    the out parameter is not assigned; the model returns 0 for it. *)
Definition DeserializeVarint (buffer : R) : Error * Z * R :=
  read_varint 4 0 0 buffer.

End Codec.

End WireFormatter.

Import WireFormatter.

(** ** FieldStringBytes *)

(** The two members of [FieldStringBytes<MAX_LENGTH, DATA_TYPE>]. *)
Record FieldStringBytes : Type := {
  current_length_ : Z;
  data_ : list byte
}.

(** [std::array::fill]. *)
Definition fill (v : byte) (a : list byte) : list byte := (fun _ => v) <$> a.

(** [memcpy(dst, src, n)]: the first [n] elements of [dst] become the first
    [n] elements at [src]. *)
Definition memcpy (dst src : list byte) (n : Z) : list byte :=
  take (Z.to_nat n) src ++ drop (Z.to_nat n) dst.

(** The characters of a C string: the bytes before the first terminator. *)
Fixpoint c_str (str : list byte) : list byte :=
  match str with
  | [] => []
  | c :: rest => if decide (c = x00) then [] else c :: c_str rest
  end.

(** [strlen], as [size_t].  [FieldString::set] converts it to [uint32_t];
    the conversion is written out there, and the theorems about it assume a
    string of fewer than [2 ^ 32] characters, as a 32 bit [size_t] has. *)
Definition strlen (str : list byte) : Z := Z.of_nat (length (c_str str)).

(** [strncpy(dst, src, n)]: exactly [n] elements of [dst] are written, the
    characters of [src] first and terminators for the rest. *)
Definition strncpy (dst src : list byte) (n : Z) : list byte :=
  take (Z.to_nat n) (c_str src ++ replicate (Z.to_nat n) x00)
    ++ drop (Z.to_nat n) dst.

Section FieldStringBytes.

(** The template parameter. *)
Variable MAX_LENGTH : Z.

Context {W R : Type} `{!WriteBufferInterface W} `{!ReadBufferInterface R}.

(** The default constructed field: [current_length_ = 0], [data_ = {{0}}]. *)
Definition new_field : FieldStringBytes :=
  {| current_length_ := 0; data_ := replicate (Z.to_nat MAX_LENGTH) x00 |}.

Definition get_length (f : FieldStringBytes) : Z := current_length_ f.

Definition get_max_length (f : FieldStringBytes) : Z := MAX_LENGTH.

(** [const DATA_TYPE* get_const() const]: the whole storage. *)
Definition get_const_ptr (f : FieldStringBytes) : list byte := data_ f.

(** [DATA_TYPE& get(uint32_t index)].  The reference returned is
    represented by the index of the slot it designates. *)
Definition get (index : Z) (f : FieldStringBytes) : Z * FieldStringBytes :=
  let limited_index := Z.min index (uint32 (MAX_LENGTH - 1)) in
  (limited_index,
   if limited_index >=? current_length_ f
   then {| current_length_ := uint32 (limited_index + 1); data_ := data_ f |}
   else f).

(** An assignment through the reference returned by [get]. *)
Definition assign (slot : Z) (v : byte) (f : FieldStringBytes)
  : FieldStringBytes :=
  {| current_length_ := current_length_ f;
     data_ := <[Z.to_nat slot := v]> (data_ f) |}.

(** [const DATA_TYPE& get_const(uint32_t index) const]. *)
Definition get_const (index : Z) (f : FieldStringBytes) : byte :=
  let limited_index := Z.min index (uint32 (MAX_LENGTH - 1)) in
  data_ f !!! Z.to_nat limited_index.

(** [Error get_const(const uint32_t index, DATA_TYPE& value) const]; the
    second component is [value] after the call. *)
Definition get_const_checked (index : Z) (value : byte) (f : FieldStringBytes)
  : Error * byte :=
  if index <? current_length_ f
  then (NO_ERRORS, data_ f !!! Z.to_nat index)
  else (INDEX_OUT_OF_BOUND, value).

(** [Error set(const DATA_TYPE* data, const uint32_t length)]. *)
Definition set (data : list byte) (len : Z) (f : FieldStringBytes)
  : Error * FieldStringBytes :=
  if MAX_LENGTH >=? len
  then (NO_ERRORS,
        {| current_length_ := len; data_ := memcpy (data_ f) data len |})
  else (ARRAY_FULL, f).

(** [Error set(const FieldStringBytes<RHS_LENGTH, DATA_TYPE>& rhs)]. *)
Definition set_from (rhs : FieldStringBytes) (f : FieldStringBytes)
  : Error * FieldStringBytes :=
  set (get_const_ptr rhs) (get_length rhs) f.

(** [Error serialize(WriteBufferInterface& buffer) const]. *)
Definition serialize (buffer : W) (f : FieldStringBytes) : Error * W :=
  let '(ok, buffer') :=
    push buffer (take (Z.to_nat (current_length_ f)) (data_ f)) in
  (if ok then NO_ERRORS else BUFFER_FULL, buffer').

(** [Error serialize_with_id(uint32_t field_number,
    WriteBufferInterface& buffer, const bool optional) const]. *)
Definition serialize_with_id (field_number : Z) (buffer : W) (optional : bool)
    (f : FieldStringBytes) : Error * W :=
  if (0 <? current_length_ f) || optional then
    let n_bytes_available := get_available_size buffer in
    if current_length_ f <=? n_bytes_available then
      let tag := MakeTag field_number LENGTH_DELIMITED in
      let '(return_value, buffer1) := SerializeVarint tag buffer in
      let '(return_value, buffer2) :=
        if decide (NO_ERRORS = return_value)
        then SerializeVarint (current_length_ f) buffer1
        else (return_value, buffer1) in
      if bool_decide (NO_ERRORS = return_value) && (0 <? current_length_ f)
      then serialize buffer2 f
      else (return_value, buffer2)
    else (BUFFER_FULL, buffer)
  else (NO_ERRORS, buffer).

(** [void clear()]. *)
Definition clear (f : FieldStringBytes) : FieldStringBytes :=
  {| current_length_ := 0; data_ := fill x00 (data_ f) |}.

(** The loop of [deserialize]:
    [while((current_length_ < availiable) && buffer.pop(byte))], with [n]
    the number of elements still missing, [availiable - current_length_]. *)
Fixpoint deserialize_loop (n : nat) (f : FieldStringBytes) (buffer : R)
  : FieldStringBytes * R :=
  match n with
  | O => (f, buffer)
  | S n' =>
      match pop buffer with
      | (Some b, buffer') =>
          deserialize_loop n'
            {| current_length_ := uint32 (current_length_ f + 1);
               data_ := <[Z.to_nat (current_length_ f) := b]> (data_ f) |}
            buffer'
      | (None, buffer') => (f, buffer')
      end
  end.

(** [Error deserialize(ReadBufferInterface& buffer)]. *)
Definition deserialize (buffer : R) (f : FieldStringBytes)
  : Error * FieldStringBytes * R :=
  let '(return_value, availiable, buffer1) := DeserializeVarint buffer in
  if decide (NO_ERRORS = return_value) then
    if MAX_LENGTH >=? availiable then
      let f0 := clear f in
      let '(f1, buffer2) :=
        deserialize_loop (Z.to_nat (availiable - current_length_ f0))
          f0 buffer1 in
      if decide (current_length_ f1 <> availiable)
      then (END_OF_BUFFER, f1, buffer2)
      else (return_value, f1, buffer2)
    else (ARRAY_FULL, f, buffer1)
  else (return_value, f, buffer1).

(** [Error deserialize_check_type(ReadBufferInterface& buffer,
    const WireType& wire_type)]. *)
Definition deserialize_check_type (buffer : R) (wire_type : WireType)
    (f : FieldStringBytes) : Error * FieldStringBytes * R :=
  let return_value :=
    if decide (LENGTH_DELIMITED = wire_type)
    then NO_ERRORS else INVALID_WIRETYPE in
  if decide (NO_ERRORS = return_value)
  then deserialize buffer f
  else (return_value, f, buffer).

(** [void set_length(uint32_t length)] (protected). *)
Definition set_length (len : Z) (f : FieldStringBytes) : FieldStringBytes :=
  {| current_length_ := Z.min len MAX_LENGTH; data_ := data_ f |}.

(** [void FieldString::set(const char* const str)]; [None] is [nullptr]. *)
Definition FieldString_set (str : option (list byte)) (f : FieldStringBytes)
  : FieldStringBytes :=
  match str with
  | Some s =>
      let str_MAX_LENGTH := uint32 (strlen s) in
      let f1 := set_length str_MAX_LENGTH f in
      let this_length := get_length f1 in
      let this_length :=
        if MAX_LENGTH >? this_length then uint32 (this_length + 1)
        else this_length in
      {| current_length_ := current_length_ f1;
         data_ := strncpy (data_ f1) s this_length |}
  | None => clear f
  end.

End FieldStringBytes.

Arguments new_field MAX_LENGTH : assert.

(** ** Concrete transports *)

(** Modelled from the spec: no implementation of the output transport is
    among the sources.  A bounded buffer: [push] appends when the bytes fit
    in the remaining room and otherwise rejects them and changes nothing;
    [get_available_size] is the remaining room. *)
Record WriteBuffer : Type := {
  written : list byte;
  max_size : Z
}.

(** Modelled from the spec: the operations of the bounded buffer. *)
#[global] Instance WriteBuffer_interface : WriteBufferInterface WriteBuffer := {
  get_available_size w := max_size w - Z.of_nat (length (written w));
  push w bytes :=
    if Z.of_nat (length bytes) <=? max_size w - Z.of_nat (length (written w))
    then (true, {| written := written w ++ bytes; max_size := max_size w |})
    else (false, w)
}.

(** An empty output transport with room for [size] bytes. *)
Definition empty_buffer (size : Z) : WriteBuffer :=
  {| written := []; max_size := size |}.

(** Modelled from the spec: no implementation of the input transport is
    among the sources.  The bytes still to be read; [pop] takes the first
    and fails on the empty list. *)
Definition ReadBuffer : Type := list byte.

(** Modelled from the spec: [pop] on the list of bytes still to be read. *)
#[global] Instance ReadBuffer_interface : ReadBufferInterface ReadBuffer := {
  pop r :=
    match r with
    | [] => (None, [])
    | b :: r' => (Some b, r')
    end
}.

(** ** The public interface, one call at a time *)

(** The class invariant of section 3, for capacity [MAX_LENGTH]: the logical
    length lies within the capacity and the storage has exactly
    [MAX_LENGTH] elements. *)
Definition field_inv (MAX_LENGTH : Z) (f : FieldStringBytes) : Prop :=
  0 <= current_length_ f <= MAX_LENGTH
  /\ Z.of_nat (length (data_ f)) = MAX_LENGTH.

Section Calls.

Variable MAX_LENGTH : Z.

Context {W R : Type} `{!WriteBufferInterface W} `{!ReadBufferInterface R}.

(** A call of a public member function, with its arguments.  [call_get]
    stands for [get(index)] and [operator[]]; its second argument is the
    value the caller stores through the returned reference, if any.
    [call_assign] is [FieldString::set] and [FieldString::operator=] on a
    C string. *)
Inductive operation : Type :=
  | call_get_length
  | call_get_max_length
  | call_get_const_ptr
  | call_get (index : Z) (store : option byte)
  | call_get_const (index : Z)
  | call_get_const_checked (index : Z) (value : byte)
  | call_set (data : list byte) (len : Z)
  | call_set_from (rhs : FieldStringBytes)
  | call_serialize_with_id (field_number : Z) (buffer : W) (optional : bool)
  | call_serialize (buffer : W)
  | call_deserialize (buffer : R)
  | call_deserialize_check_type (buffer : R) (wire_type : WireType)
  | call_clear
  | call_assign (str : option (list byte)).

(** What a call hands back to the caller: the return value and the
    reference arguments after the call. *)
Inductive outcome : Type :=
  | ret_void
  | ret_uint32 (n : Z)
  | ret_pointer (storage : list byte)
  | ret_reference (slot : Z)
  | ret_element (b : byte)
  | ret_error (e : Error)
  | ret_checked (e : Error) (value : byte)
  | ret_written (e : Error) (buffer : W)
  | ret_read (e : Error) (buffer : R).

(** The outcome of a call and the field after it.  The member functions
    declared [const] are functions of the field; after them the field is
    the one they were called on. *)
Definition call (op : operation) (f : FieldStringBytes)
  : outcome * FieldStringBytes :=
  match op with
  | call_get_length => (ret_uint32 (get_length f), f)
  | call_get_max_length => (ret_uint32 (get_max_length MAX_LENGTH f), f)
  | call_get_const_ptr => (ret_pointer (get_const_ptr f), f)
  | call_get index store =>
      let '(slot, f') := get MAX_LENGTH index f in
      (ret_reference slot,
       match store with
       | Some v => assign slot v f'
       | None => f'
       end)
  | call_get_const index => (ret_element (get_const MAX_LENGTH index f), f)
  | call_get_const_checked index value =>
      let '(e, value') := get_const_checked index value f in
      (ret_checked e value', f)
  | call_set data len =>
      let '(e, f') := set MAX_LENGTH data len f in (ret_error e, f')
  | call_set_from rhs =>
      let '(e, f') := set_from MAX_LENGTH rhs f in (ret_error e, f')
  | call_serialize_with_id field_number buffer optional =>
      let '(e, buffer') := serialize_with_id field_number buffer optional f in
      (ret_written e buffer', f)
  | call_serialize buffer =>
      let '(e, buffer') := serialize buffer f in (ret_written e buffer', f)
  | call_deserialize buffer =>
      let '(e, f', buffer') := deserialize MAX_LENGTH buffer f in
      (ret_read e buffer', f')
  | call_deserialize_check_type buffer wire_type =>
      let '(e, f', buffer') :=
        deserialize_check_type MAX_LENGTH buffer wire_type f in
      (ret_read e buffer', f')
  | call_clear => (ret_void, clear f)
  | call_assign str => (ret_void, FieldString_set MAX_LENGTH str f)
  end.

(** The calls C++ gives a meaning to: [uint32_t] arguments are in range,
    the array [get] takes a reference into has elements, and a pointer
    passed with a length is readable for that many elements whenever the
    function reads it. *)
Definition admissible (op : operation) : Prop :=
  match op with
  | call_get index _ => is_uint32 index /\ 0 < MAX_LENGTH
  | call_set data len =>
      is_uint32 len /\ (len <= MAX_LENGTH -> len <= Z.of_nat (length data))
  | call_set_from rhs =>
      0 <= current_length_ rhs <= Z.of_nat (length (data_ rhs))
  | _ => True
  end.

(** The states a field goes through under a sequence of calls: the field
    after the first call, after the second, and so on. *)
Fixpoint run (ops : list operation) (f : FieldStringBytes)
  : list FieldStringBytes :=
  match ops with
  | [] => []
  | op :: ops' => let f' := (call op f).2 in f' :: run ops' f'
  end.

(** [get_length()] after each of a sequence of [get(index)] calls. *)
Fixpoint lengths_after_get (indices : list Z) (f : FieldStringBytes) : list Z :=
  match indices with
  | [] => []
  | index :: indices' =>
      let f' := (get MAX_LENGTH index f).2 in
      get_length f' :: lengths_after_get indices' f'
  end.

End Calls.

(** The indices [0, 1, ..., n-1]. *)
Definition indices_upto (n : nat) : list Z := Z.of_nat <$> seq 0 n.

(** ** The round trip *)

(** The field after [set(payload, L)] on [f0], with [L] the number of bytes
    of [payload]. *)
Definition field_with (MAX_LENGTH : Z) (payload : list byte)
    (f0 : FieldStringBytes) : FieldStringBytes :=
  (set MAX_LENGTH payload (Z.of_nat (length payload)) f0).2.

(** The bytes in an output transport of [size] bytes, empty before, after
    [serialize_with_id]. *)
Definition wire_bytes (field_number : Z) (size : Z) (optional : bool)
    (f : FieldStringBytes) : ReadBuffer :=
  written (serialize_with_id field_number (empty_buffer size) optional f).2.

(** The round trip the way section 8 words it: a fresh field is
    deserialized from all the bytes [serialize_with_id] wrote. *)
Definition round_trip (MAX_LENGTH field_number size : Z) (optional : bool)
    (payload : list byte) (f0 : FieldStringBytes)
  : Error * FieldStringBytes * ReadBuffer :=
  deserialize_check_type MAX_LENGTH
    (wire_bytes field_number size optional (field_with MAX_LENGTH payload f0))
    LENGTH_DELIMITED (new_field MAX_LENGTH).

(** The round trip the way a containing message runs it: the tag is read
    first, and the field is deserialized from what follows it. *)
Definition round_trip_after_tag (MAX_LENGTH field_number size : Z)
    (optional : bool) (payload : list byte) (f0 : FieldStringBytes)
  : Error * FieldStringBytes * ReadBuffer :=
  let '(_, _, buffer) :=
    DeserializeVarint
      (wire_bytes field_number size optional
         (field_with MAX_LENGTH payload f0)) in
  deserialize_check_type MAX_LENGTH buffer LENGTH_DELIMITED
    (new_field MAX_LENGTH).

(** ** The writes of [serialize_with_id], as section 4.1 words them *)

(** The tag varint, then the varint of the logical length, then, only if the
    length is positive, the payload through [serialize]; the first failure
    ends the sequence and is returned. *)
Definition write_tag_length_payload {W : Type} `{!WriteBufferInterface W}
    (field_number : Z) (buffer : W) (f : FieldStringBytes) : Error * W :=
  match SerializeVarint (MakeTag field_number LENGTH_DELIMITED) buffer with
  | (NO_ERRORS, buffer1) =>
      match SerializeVarint (current_length_ f) buffer1 with
      | (NO_ERRORS, buffer2) =>
          if 0 <? current_length_ f then serialize buffer2 f
          else (NO_ERRORS, buffer2)
      | failure => failure
      end
  | failure => failure
  end.

(** The storage after a C string of [m] stored characters [chars] was
    assigned, as section 4.2 words it: the characters, then one terminator
    only if [m] is below the capacity, then what the storage held before. *)
Definition text_storage (MAX_LENGTH m : Z) (chars old : list byte)
  : list byte :=
  if m <? MAX_LENGTH
  then take (Z.to_nat m) chars ++ [x00] ++ drop (Z.to_nat m + 1) old
  else take (Z.to_nat m) chars ++ drop (Z.to_nat m) old.

(** ** Assignment between fields *)

(** [FieldString<MAX_LENGTH>& operator=(const FieldString<RHS_LENGTH>& rhs)]
    and the same operator of [FieldBytes]: both call
    [set(rhs.get_const(), rhs.get_length())], drop its result and return the
    field itself. *)
Definition assign_from (MAX_LENGTH : Z) (rhs f : FieldStringBytes)
  : FieldStringBytes :=
  (set MAX_LENGTH (get_const_ptr rhs) (get_length rhs) f).2.

(** ** Receiving an entry *)

(** What a containing message does with the bytes of one entry: it reads the
    tag varint and hands what follows to [deserialize_check_type] of a
    default constructed field of capacity [MAX_LENGTH]. *)
Definition receive (MAX_LENGTH : Z) (bytes : ReadBuffer)
  : Error * FieldStringBytes * ReadBuffer :=
  let '(_, _, buffer) := DeserializeVarint bytes in
  deserialize_check_type MAX_LENGTH buffer LENGTH_DELIMITED
    (new_field MAX_LENGTH).

(** ** Building the content by indexed writes *)

(** The caller's loop [field[index] = v] over the elements of [values], with
    [index] counting up from its start value: each step takes the reference
    [operator[]] (that is [get]) returns and stores through it. *)
Fixpoint write_from (MAX_LENGTH index : Z) (values : list byte)
    (f : FieldStringBytes) : FieldStringBytes :=
  match values with
  | [] => f
  | v :: values' =>
      let '(slot, f') := get MAX_LENGTH index f in
      write_from MAX_LENGTH (uint32 (index + 1)) values' (assign slot v f')
  end.

(** ** Member functions as transformers of the object *)

(** A member function body run on the object [this]: it yields its result
    and the object after it.  The bodies below follow the source statement
    by statement; every read of a member is a [read_], every assignment to
    one a [write_]. *)
Definition method (A : Type) : Type :=
  FieldStringBytes -> A * FieldStringBytes.

Definition ret {A : Type} (a : A) : method A := fun this => (a, this).

Definition bind {A B : Type} (m : method A) (k : A -> method B) : method B :=
  fun this => let '(a, this') := m this in k a this'.

Declare Scope method_scope.
Delimit Scope method_scope with method.
Bind Scope method_scope with method.

Notation "x <- m ;; k" := (bind m (fun x => k))
  (at level 100, m at next level, right associativity) : method_scope.
Notation "m ;;; k" := (bind m (fun _ => k))
  (at level 100, right associativity) : method_scope.

(** The value of [current_length_]. *)
Definition read_current_length : method Z :=
  fun this => (current_length_ this, this).

(** The elements of [data_]. *)
Definition read_data : method (list byte) :=
  fun this => (data_ this, this).

(** [current_length_ = n]. *)
Definition write_current_length (n : Z) : method unit :=
  fun this => (tt, {| current_length_ := n; data_ := data_ this |}).

(** An assignment to elements of [data_], [d] being the array after it. *)
Definition write_data (d : list byte) : method unit :=
  fun this => (tt, {| current_length_ := current_length_ this; data_ := d |}).

Section Methods.

Variable MAX_LENGTH : Z.

Context {W : Type} `{!WriteBufferInterface W}.

Local Open Scope method_scope.

(** The body of [clear()]. *)
Definition clear_method : method unit :=
  data <- read_data ;;
  write_data (fill x00 data) ;;;
  write_current_length 0.

(** The body of [set(data, length)]. *)
Definition set_method (data : list byte) (len : Z) : method Error :=
  if MAX_LENGTH >=? len then
    write_current_length len ;;;
    dst <- read_data ;;
    write_data (memcpy dst data len) ;;;
    ret NO_ERRORS
  else ret ARRAY_FULL.

(** The body of [get(index)]. *)
Definition get_method (index : Z) : method Z :=
  let limited_index := Z.min index (uint32 (MAX_LENGTH - 1)) in
  len <- read_current_length ;;
  (if limited_index >=? len
   then write_current_length (uint32 (limited_index + 1))
   else ret tt) ;;;
  ret limited_index.

(** The body of [serialize(buffer)]. *)
Definition serialize_method (buffer : W) : method (Error * W) :=
  data <- read_data ;;
  len <- read_current_length ;;
  let '(ok, buffer') := push buffer (take (Z.to_nat len) data) in
  ret (if ok then NO_ERRORS else BUFFER_FULL, buffer').

(** The body of [serialize_with_id(field_number, buffer, optional)]. *)
Definition serialize_with_id_method (field_number : Z) (buffer : W)
    (optional : bool) : method (Error * W) :=
  len <- read_current_length ;;
  if (0 <? len) || optional then
    let n_bytes_available := get_available_size buffer in
    len <- read_current_length ;;
    if len <=? n_bytes_available then
      let tag := MakeTag field_number LENGTH_DELIMITED in
      let '(return_value, buffer1) := SerializeVarint tag buffer in
      written_length <-
        (if decide (NO_ERRORS = return_value)
         then len <- read_current_length ;; ret (SerializeVarint len buffer1)
         else ret (return_value, buffer1)) ;;
      let '(return_value, buffer2) := written_length in
      len <- read_current_length ;;
      if bool_decide (NO_ERRORS = return_value) && (0 <? len)
      then serialize_method buffer2
      else ret (return_value, buffer2)
    else ret (BUFFER_FULL, buffer)
  else ret (NO_ERRORS, buffer).

End Methods.

(** ** Machine integers and tactics *)

Lemma uint32_small z : is_uint32 z -> uint32 z = z.
Proof. unfold is_uint32, uint32. intros Hz. apply Z.mod_small. lia. Qed.

(** Case analysis on every integer comparison the goal branches on. *)
Ltac compare_cases :=
  repeat match goal with
    | |- context [Z.geb ?a ?b] => destruct (Z.geb_spec a b)
    | |- context [Z.gtb ?a ?b] => destruct (Z.gtb_spec a b)
    | |- context [Z.leb ?a ?b] => destruct (Z.leb_spec a b)
    | |- context [Z.ltb ?a ?b] => destruct (Z.ltb_spec a b)
    end.

(** A value known to fit needs no wrap-around. *)
Ltac no_wrap :=
  rewrite uint32_small by (unfold is_uint32; lia).

(** ** Arithmetic of the varint encoding *)

Lemma byte_unsigned_of_Z_small z :
  0 <= z < 256 -> byte.unsigned (byte.of_Z z) = z.
Proof.
  intros Hz. rewrite byte.unsigned_of_Z. unfold byte.wrap.
  apply Z.mod_small. lia.
Qed.

(** Bits set below position [s] and bits set from position [s] on do not
    meet: or-ing them adds them. *)
Lemma lor_shiftl_add a b s :
  0 <= s -> 0 <= a < 2 ^ s -> 0 <= b ->
  Z.lor a (Z.shiftl b s) = a + b * 2 ^ s.
Proof.
  intros Hs Ha Hb.
  rewrite <- Z.add_lor_land, <- (Z.shiftl_mul_pow2 b s Hs).
  enough (Z.land a (Z.shiftl b s) = 0) as -> by lia.
  apply Z.bits_inj'. intros i Hi.
  rewrite Z.land_spec, Z.bits_0.
  destruct (Z.lt_ge_cases i s) as [Hlt | Hge].
  - rewrite Z.shiftl_spec_low by lia. apply andb_false_r.
  - destruct (Z.eq_dec a 0) as [-> | Hne].
    + rewrite Z.bits_0. reflexivity.
    + rewrite (Z.bits_above_log2 a i); [reflexivity | lia |].
      apply Z.lt_le_trans with s; [| lia].
      apply Z.log2_lt_pow2; lia.
Qed.

Lemma continuation_byte v :
  0 <= v ->
  byte.unsigned (byte.of_Z (Z.lor (Z.land v 127) 128)) = v mod 128 + 128.
Proof.
  intros Hv.
  change 127 with (Z.ones 7). rewrite Z.land_ones by lia.
  change 128 with (Z.shiftl 1 7) at 1.
  change (2 ^ 7) with 128.
  pose proof (Z.mod_pos_bound v 128 ltac:(lia)) as Hm.
  rewrite lor_shiftl_add by (change (2 ^ 7) with 128; lia).
  change (2 ^ 7) with 128.
  rewrite byte_unsigned_of_Z_small; lia.
Qed.

Lemma land_127 z : Z.land z 127 = z mod 128.
Proof. change 127 with (Z.ones 7). rewrite Z.land_ones by lia. reflexivity. Qed.

Lemma length_varint_bytes n v :
  (1 <= length (varint_bytes n v) <= S n)%nat.
Proof.
  revert v. induction n as [| n IH]; intros v; simpl.
  - lia.
  - destruct (v <? 128); simpl; [lia |]. specialize (IH (Z.shiftr v 7)). lia.
Qed.

(** Reading back what [varint_bytes] produced, in the middle of a varint:
    [temp_value] holds the groups below [shift], [v] the rest of the
    value. *)
Lemma read_varint_bytes n : forall shift temp_value v (rest : ReadBuffer),
  0 <= shift ->
  0 <= temp_value < 2 ^ shift ->
  0 <= v < 2 ^ (7 * (Z.of_nat n + 1)) ->
  temp_value + v * 2 ^ shift < 2 ^ 32 ->
  read_varint n shift temp_value (varint_bytes n v ++ rest)
  = (NO_ERRORS, temp_value + v * 2 ^ shift, rest).
Proof.
  induction n as [| n IH]; intros shift temp_value v rest Hs Ht Hv Hr.
  - change (2 ^ (7 * (Z.of_nat 0 + 1))) with 128 in Hv.
    simpl. rewrite byte_unsigned_of_Z_small by lia.
    rewrite land_127, Z.mod_small by lia.
    rewrite lor_shiftl_add by lia.
    rewrite uint32_small by (unfold is_uint32; nia).
    destruct (Z.ltb_spec v 128); [reflexivity | lia].
  - simpl varint_bytes.
    destruct (Z.ltb_spec v 128) as [Hlt | Hge].
    + simpl. rewrite byte_unsigned_of_Z_small by lia.
      rewrite land_127, Z.mod_small by lia.
      rewrite lor_shiftl_add by lia.
      rewrite uint32_small by (unfold is_uint32; nia).
      destruct (Z.ltb_spec v 128); [reflexivity | lia].
    + cbn [app read_varint pop ReadBuffer_interface].
      rewrite continuation_byte by lia.
      pose proof (Z.mod_pos_bound v 128 ltac:(lia)) as Hm.
      pose proof (Z.div_mod v 128 ltac:(lia)) as Hdm.
      assert (Hp : 2 ^ (shift + 7) = 2 ^ shift * 128)
        by (rewrite Z.pow_add_r by lia; reflexivity).
      assert (Hpos : 0 < 2 ^ shift) by (apply Z.pow_pos_nonneg; lia).
      assert (Hd : 0 <= v / 128 < 2 ^ (7 * (Z.of_nat n + 1))).
      { split; [apply Z.div_pos; lia |].
        apply Z.div_lt_upper_bound; [lia |].
        replace (7 * (Z.of_nat (S n) + 1)) with (7 + 7 * (Z.of_nat n + 1)) in Hv
          by lia.
        rewrite Z.pow_add_r in Hv by lia. change (2 ^ 7) with 128 in Hv. lia. }
      rewrite land_127.
      replace ((v mod 128 + 128) mod 128) with (v mod 128)
        by (rewrite <- Z.add_mod_idemp_r, Z.mod_same, Z.add_0_r, Z.mod_mod; lia).
      rewrite lor_shiftl_add by lia.
      rewrite uint32_small by (unfold is_uint32; nia).
      destruct (Z.ltb_spec (v mod 128 + 128) 128); [lia |].
      rewrite Z.shiftr_div_pow2 by lia. change (2 ^ 7) with 128.
      rewrite IH; [f_equal; f_equal; nia | lia | nia | exact Hd | nia].
Qed.

(** [DeserializeVarint] inverts [SerializeVarint] on every [uint32_t]. *)
Lemma DeserializeVarint_encode v (rest : ReadBuffer) :
  is_uint32 v ->
  DeserializeVarint (encode_varint v ++ rest) = (NO_ERRORS, v, rest).
Proof.
  intros Hv. unfold DeserializeVarint, encode_varint, is_uint32 in *.
  rewrite read_varint_bytes; [f_equal; f_equal; lia | lia | lia | | lia].
  change (2 ^ (7 * (Z.of_nat 4 + 1))) with (2 ^ 35). lia.
Qed.

(** ** Bulk assignment *)

Lemma lookup_memcpy_lt (dst src : list byte) (n : Z) (i : nat) :
  n <= Z.of_nat (length src) -> (i < Z.to_nat n)%nat ->
  memcpy dst src n !! i = src !! i.
Proof.
  intros Hn Hi. unfold memcpy.
  rewrite lookup_app_l by (rewrite length_take; lia).
  apply lookup_take_lt. exact Hi.
Qed.

Lemma lookup_memcpy_ge (dst src : list byte) (n : Z) (i : nat) :
  n <= Z.of_nat (length src) -> (Z.to_nat n <= i)%nat ->
  memcpy dst src n !! i = dst !! i.
Proof.
  intros Hn Hi. unfold memcpy.
  assert (Hl : length (take (Z.to_nat n) src) = Z.to_nat n)
    by (rewrite length_take; lia).
  rewrite lookup_app_r by lia.
  rewrite Hl, lookup_drop. f_equal. lia.
Qed.

Lemma length_memcpy (dst src : list byte) (n : Z) :
  n <= Z.of_nat (length src) -> n <= Z.of_nat (length dst) ->
  length (memcpy dst src n) = length dst.
Proof.
  intros Hs Hd. unfold memcpy.
  rewrite length_app, length_take, length_drop. lia.
Qed.

(** C7.  [set(data, length)] with [length] above the capacity returns
    [ARRAY_FULL] and leaves the field as it was; with [length] within the
    capacity it returns success, the logical length becomes [length], the
    first [length] elements of the storage are those at [data] and every
    element from index [length] on is the one stored before. *)
Theorem set_array_full_or_copy (MAX_LENGTH : Z) (data : list byte) (len : Z)
    (f : FieldStringBytes) :
  (MAX_LENGTH < len -> set MAX_LENGTH data len f = (ARRAY_FULL, f))
  /\ (0 <= len <= MAX_LENGTH -> len <= Z.of_nat (length data) ->
      exists f',
        set MAX_LENGTH data len f = (NO_ERRORS, f')
        /\ get_length f' = len
        /\ (forall i : nat, (i < Z.to_nat len)%nat -> data_ f' !! i = data !! i)
        /\ (forall i : nat,
              (Z.to_nat len <= i)%nat -> data_ f' !! i = data_ f !! i)).
Proof.
  split.
  - intros Hlen. unfold set. compare_cases; [lia | reflexivity].
  - intros Hlen Hdata. unfold set. compare_cases; [| lia].
    eexists. split; [reflexivity |]. cbn.
    split; [reflexivity |]. split; intros i Hi.
    + now apply lookup_memcpy_lt.
    + now apply lookup_memcpy_ge.
Qed.

Lemma set_array_full_or_copy_witness :
  set 2 [x61; x62; x63] 3 (new_field 2) = (ARRAY_FULL, new_field 2)
  /\ exists f',
       set 4 [x61; x62; x63] 3 (new_field 4) = (NO_ERRORS, f')
       /\ get_length f' = 3
       /\ (forall i : nat,
             (i < Z.to_nat 3)%nat -> data_ f' !! i = [x61; x62; x63] !! i)
       /\ (forall i : nat,
             (Z.to_nat 3 <= i)%nat -> data_ f' !! i = data_ (new_field 4) !! i).
Proof.
  split.
  - apply (set_array_full_or_copy 2 [x61; x62; x63] 3 (new_field 2)). lia.
  - apply (set_array_full_or_copy 4 [x61; x62; x63] 3 (new_field 4));
      simpl; lia.
Defined.

(** ** Indexed access *)

Lemma get_clamped (MAX_LENGTH index : Z) (f : FieldStringBytes) :
  0 < MAX_LENGTH < 2 ^ 32 -> 0 <= index ->
  get MAX_LENGTH index f
  = (Z.min index (MAX_LENGTH - 1),
     {| current_length_ :=
          if Z.min index (MAX_LENGTH - 1) >=? current_length_ f
          then Z.min index (MAX_LENGTH - 1) + 1
          else current_length_ f;
        data_ := data_ f |}).
Proof.
  intros HM Hi. unfold get.
  rewrite (uint32_small (MAX_LENGTH - 1)) by (unfold is_uint32; lia).
  compare_cases.
  - no_wrap. reflexivity.
  - destruct f; reflexivity.
Qed.

Lemma lengths_after_get_from (MAX_LENGTH : Z) (n : nat) :
  0 < MAX_LENGTH < 2 ^ 32 ->
  forall (start : nat) (f : FieldStringBytes),
    current_length_ f = Z.min (Z.of_nat start) MAX_LENGTH ->
    lengths_after_get MAX_LENGTH (Z.of_nat <$> seq start n) f
    = (fun index => Z.min (index + 1) MAX_LENGTH) <$> (Z.of_nat <$> seq start n).
Proof.
  intros HM. induction n as [| n IH]; intros start f Hf; [reflexivity |].
  cbn [seq fmap list_fmap lengths_after_get].
  rewrite get_clamped by lia. cbn [snd get_length current_length_].
  assert (Hlen :
    (if Z.min (Z.of_nat start) (MAX_LENGTH - 1) >=? current_length_ f
     then Z.min (Z.of_nat start) (MAX_LENGTH - 1) + 1
     else current_length_ f) = Z.min (Z.of_nat start + 1) MAX_LENGTH).
  { destruct (Z.geb_spec (Z.min (Z.of_nat start) (MAX_LENGTH - 1))
                (current_length_ f)); lia. }
  rewrite Hlen. f_equal.
  apply IH. cbn. lia.
Qed.

(** C8, amended.  [get(index)] clamps the index to [capacity - 1]; if the
    clamped index is at or beyond the logical length the length becomes the
    clamped index plus one, otherwise it is unchanged; the storage is not
    touched.  On a cleared field, calling [get] at the indices 0, 1, 2, ...
    in increasing order yields [get_length() == min(index + 1, capacity)]
    after each call: [index + 1] while the index is below the capacity, and
    the capacity from then on. *)
Theorem get_clamps_and_grows (MAX_LENGTH : Z) (f : FieldStringBytes) :
  0 < MAX_LENGTH < 2 ^ 32 ->
  (forall index : Z, 0 <= index ->
     get MAX_LENGTH index f
     = (Z.min index (MAX_LENGTH - 1),
        {| current_length_ :=
             if Z.min index (MAX_LENGTH - 1) >=? current_length_ f
             then Z.min index (MAX_LENGTH - 1) + 1
             else current_length_ f;
           data_ := data_ f |}))
  /\ (forall n : nat,
        lengths_after_get MAX_LENGTH (indices_upto n) (clear f)
        = (fun index => Z.min (index + 1) MAX_LENGTH) <$> indices_upto n).
Proof.
  intros HM. split.
  - intros index Hi. now apply get_clamped.
  - intros n. unfold indices_upto. apply lengths_after_get_from; [exact HM |].
    cbn. lia.
Qed.

Lemma get_clamps_and_grows_witness :
  get 2 5 (new_field 2)
  = (Z.min 5 (2 - 1),
     {| current_length_ :=
          if Z.min 5 (2 - 1) >=? current_length_ (new_field 2)
          then Z.min 5 (2 - 1) + 1
          else current_length_ (new_field 2);
        data_ := data_ (new_field 2) |})
  /\ (forall n : nat,
        lengths_after_get 2 (indices_upto n) (clear (new_field 2))
        = (fun index => Z.min (index + 1) 2) <$> indices_upto n).
Proof.
  destruct (get_clamps_and_grows 2 (new_field 2)) as [Hget Hgrow].
  - lia.
  - split; [| exact Hgrow]. apply Hget. lia.
Defined.

(** C8 as stated fails from the capacity on: with capacity 2 the call at
    index 2 is clamped to slot 1 and leaves the length at 2, not 3. *)
Lemma get_growth_stops_at_capacity :
  lengths_after_get 2 (indices_upto 3) (clear (new_field 2)) = [1; 2; 2]
  /\ lengths_after_get 2 (indices_upto 3) (clear (new_field 2))
     <> (fun index => index + 1) <$> indices_upto 3.
Proof. split; [reflexivity | discriminate]. Qed.

(** ** Serialization *)

Section Serialize.

Context {W : Type} `{!WriteBufferInterface W}.

(** Once the room check has passed, [serialize_with_id] is the sequence of
    writes of section 4.1. *)
Lemma serialize_with_id_writes (field_number : Z) (buffer : W)
    (optional : bool) (f : FieldStringBytes) :
  (0 <? current_length_ f) || optional = true ->
  current_length_ f <= get_available_size buffer ->
  serialize_with_id field_number buffer optional f
  = write_tag_length_payload field_number buffer f.
Proof.
  intros Hemit Hroom. unfold serialize_with_id, write_tag_length_payload.
  rewrite Hemit.
  destruct (Z.leb_spec (current_length_ f) (get_available_size buffer));
    [| lia].
  destruct (SerializeVarint _ buffer) as [e1 buffer1].
  destruct e1; try reflexivity. cbn.
  destruct (SerializeVarint _ buffer1) as [e2 buffer2].
  destruct e2; reflexivity.
Qed.

End Serialize.

(** *** Writing to the bounded buffer *)

Lemma push_fits (w : WriteBuffer) (bytes : list byte) :
  Z.of_nat (length bytes) <= max_size w - Z.of_nat (length (written w)) ->
  push w bytes
  = (true, {| written := written w ++ bytes; max_size := max_size w |}).
Proof.
  intros Hroom. unfold push, WriteBuffer_interface.
  destruct (Z.leb_spec (Z.of_nat (length bytes))
              (max_size w - Z.of_nat (length (written w))));
    [reflexivity | lia].
Qed.

Lemma SerializeVarint_fits (value : Z) (w : WriteBuffer) :
  Z.of_nat (length (encode_varint value))
    <= max_size w - Z.of_nat (length (written w)) ->
  SerializeVarint value w
  = (NO_ERRORS,
     {| written := written w ++ encode_varint value; max_size := max_size w |}).
Proof.
  intros Hroom. unfold SerializeVarint. rewrite push_fits by exact Hroom.
  reflexivity.
Qed.

Lemma serialize_fits (w : WriteBuffer) (f : FieldStringBytes) :
  Z.of_nat (length (take (Z.to_nat (current_length_ f)) (data_ f)))
    <= max_size w - Z.of_nat (length (written w)) ->
  serialize w f
  = (NO_ERRORS,
     {| written := written w ++ take (Z.to_nat (current_length_ f)) (data_ f);
        max_size := max_size w |}).
Proof.
  intros Hroom. unfold serialize. rewrite push_fits by exact Hroom.
  reflexivity.
Qed.

(** C4.  Whenever [serialize_with_id] decides to emit (the logical length is
    positive or the field is optional), the only room it asks the transport
    for beforehand is the logical length: with less room than that it
    returns [BUFFER_FULL] and the transport is as it was; with that much
    room, whatever the tag and length varints need, it goes on to the
    writes. *)
Theorem serialize_with_id_room_check {W : Type} `{!WriteBufferInterface W}
    (field_number : Z) (buffer : W) (optional : bool) (f : FieldStringBytes) :
  0 < current_length_ f \/ optional = true ->
  (get_available_size buffer < current_length_ f ->
   serialize_with_id field_number buffer optional f = (BUFFER_FULL, buffer))
  /\ (current_length_ f <= get_available_size buffer ->
      serialize_with_id field_number buffer optional f
      = write_tag_length_payload field_number buffer f).
Proof.
  intros Hemit.
  assert (Hcond : (0 <? current_length_ f) || optional = true).
  { destruct Hemit as [Hpos | ->]; [| apply orb_true_r].
    apply orb_true_iff. left. now apply Z.ltb_lt. }
  split; intros Hroom.
  - unfold serialize_with_id. rewrite Hcond.
    destruct (Z.leb_spec (current_length_ f) (get_available_size buffer));
      [lia | reflexivity].
  - now apply serialize_with_id_writes.
Qed.

Lemma serialize_with_id_room_check_witness :
  serialize_with_id 1 (empty_buffer 2) false
    (field_with 4 [x61; x62; x63] (new_field 4))
  = (BUFFER_FULL, empty_buffer 2)
  /\ serialize_with_id 1 (empty_buffer 3) false
       (field_with 4 [x61; x62; x63] (new_field 4))
     = write_tag_length_payload 1 (empty_buffer 3)
         (field_with 4 [x61; x62; x63] (new_field 4)).
Proof.
  split.
  - apply (serialize_with_id_room_check 1 (empty_buffer 2) false
             (field_with 4 [x61; x62; x63] (new_field 4))).
    + left. vm_compute. reflexivity.
    + vm_compute. reflexivity.
  - apply (serialize_with_id_room_check 1 (empty_buffer 3) false
             (field_with 4 [x61; x62; x63] (new_field 4))).
    + left. vm_compute. reflexivity.
    + vm_compute. discriminate.
Defined.

(** Room for the payload alone passes the check although the tag and the
    length do not fit with it: the call then fails in the payload write,
    after the tag and the length went out. *)
Example payload_room_is_not_enough :
  serialize_with_id 1 (empty_buffer 3) false
    (field_with 4 [x61; x62; x63] (new_field 4))
  = (BUFFER_FULL, {| written := [x0a; x03]; max_size := 3 |}).
Proof. reflexivity. Qed.

(** C3.  On a zero-length field, [serialize_with_id] with [optional = false]
    returns success and leaves every transport as it was; with
    [optional = true] it writes the varint of the tag for ([field_number],
    [LENGTH_DELIMITED]) and then the varint of 0 and never pushes a payload:
    a transport with room for them receives exactly the bytes of the tag
    varint followed by the single byte 0. *)
Theorem serialize_with_id_zero_length (field_number : Z)
    (f : FieldStringBytes) :
  current_length_ f = 0 ->
  (forall (W : Type) (I : WriteBufferInterface W) (buffer : W),
     serialize_with_id field_number buffer false f = (NO_ERRORS, buffer))
  /\ (forall (W : Type) (I : WriteBufferInterface W) (buffer : W),
        0 <= get_available_size buffer ->
        serialize_with_id field_number buffer true f
        = match
            SerializeVarint (MakeTag field_number LENGTH_DELIMITED) buffer
          with
          | (NO_ERRORS, buffer1) => SerializeVarint 0 buffer1
          | failure => failure
          end)
  /\ (forall w : WriteBuffer,
        Z.of_nat (length (encode_varint (MakeTag field_number LENGTH_DELIMITED)))
          + 1 <= max_size w - Z.of_nat (length (written w)) ->
        serialize_with_id field_number w true f
        = (NO_ERRORS,
           {| written :=
                written w
                  ++ encode_varint (MakeTag field_number LENGTH_DELIMITED)
                  ++ [x00];
              max_size := max_size w |})).
Proof.
  intros Hzero. split; [| split].
  - intros W I buffer. unfold serialize_with_id. rewrite Hzero. reflexivity.
  - intros W I buffer Hroom.
    rewrite serialize_with_id_writes
      by (rewrite Hzero; first [reflexivity | lia]).
    unfold write_tag_length_payload. rewrite Hzero.
    destruct (SerializeVarint _ buffer) as [e1 buffer1].
    destruct e1; try reflexivity.
    destruct (SerializeVarint 0 buffer1) as [e2 buffer2].
    destruct e2; reflexivity.
  - intros w Hroom.
    rewrite serialize_with_id_writes
      by (rewrite Hzero; first [reflexivity | cbn; lia]).
    unfold write_tag_length_payload. rewrite Hzero.
    rewrite SerializeVarint_fits by lia.
    rewrite SerializeVarint_fits
      by (cbn [written max_size]; rewrite length_app;
          change (length (encode_varint 0)) with 1%nat; lia).
    cbn [written max_size Z.ltb Z.compare].
    change (encode_varint 0) with [x00].
    rewrite <- app_assoc. reflexivity.
Qed.

Lemma serialize_with_id_zero_length_witness :
  (forall (W : Type) (I : WriteBufferInterface W) (buffer : W),
     serialize_with_id 1 buffer false (new_field 4) = (NO_ERRORS, buffer))
  /\ serialize_with_id 1 (empty_buffer 2) true (new_field 4)
     = (NO_ERRORS, {| written := [x0a; x00]; max_size := 2 |}).
Proof.
  destruct (serialize_with_id_zero_length 1 (new_field 4) eq_refl)
    as [Hplain [_ Hoptional]].
  split; [exact Hplain |].
  apply (Hoptional (empty_buffer 2)). vm_compute. discriminate.
Defined.

(** The bodies that assign to members do what the functions of the field
    above do. *)
Lemma mutating_methods_run (MAX_LENGTH : Z) (f : FieldStringBytes) :
  clear_method f = (tt, clear f)
  /\ (forall (data : list byte) (len : Z),
        (set_method MAX_LENGTH data len f).2 = (set MAX_LENGTH data len f).2
        /\ (set_method MAX_LENGTH data len f).1
           = (set MAX_LENGTH data len f).1)
  /\ (forall index : Z, get_method MAX_LENGTH index f = get MAX_LENGTH index f).
Proof.
  split; [reflexivity |]. split.
  - intros data len. unfold set_method, set.
    destruct (MAX_LENGTH >=? len); split; reflexivity.
  - intros index. unfold get_method, get, bind, read_current_length.
    destruct (Z.min index (uint32 (MAX_LENGTH - 1)) >=? current_length_ f);
      [reflexivity |].
    destruct f; reflexivity.
Qed.

(** C10.  [serialize] and [serialize_with_id] never modify the field: run on
    any field and any transport, their bodies leave the object, logical
    length and storage alike, as it was before the call, whether they
    return success, [BUFFER_FULL] or a failure of one of their steps; what
    they return is what [serialize] and [serialize_with_id] compute from
    that field. *)
Theorem serialize_methods_keep_field {W : Type} `{!WriteBufferInterface W}
    (f : FieldStringBytes) :
  (forall buffer : W,
     (serialize_method buffer f).2 = f
     /\ (serialize_method buffer f).1 = serialize buffer f)
  /\ (forall (field_number : Z) (buffer : W) (optional : bool),
        (serialize_with_id_method field_number buffer optional f).2 = f
        /\ (serialize_with_id_method field_number buffer optional f).1
           = serialize_with_id field_number buffer optional f).
Proof.
  assert (Hserialize : forall buffer : W,
    serialize_method buffer f = (serialize buffer f, f)).
  { intros buffer.
    unfold serialize_method, serialize, bind, read_data, read_current_length.
    destruct (push buffer _) as [ok buffer']. reflexivity. }
  split.
  - intros buffer. rewrite Hserialize. split; reflexivity.
  - intros field_number buffer optional.
    enough (Hrun :
      serialize_with_id_method field_number buffer optional f
      = (serialize_with_id field_number buffer optional f, f))
      by (rewrite Hrun; split; reflexivity).
    unfold serialize_with_id_method, serialize_with_id, bind,
      read_current_length.
    destruct ((0 <? current_length_ f) || optional); [| reflexivity].
    destruct (current_length_ f <=? get_available_size buffer);
      [| reflexivity].
    destruct (SerializeVarint _ buffer) as [e1 buffer1].
    destruct (decide (NO_ERRORS = e1)).
    + unfold ret.
      destruct (SerializeVarint (current_length_ f) buffer1) as [e2 buffer2].
      destruct (bool_decide (NO_ERRORS = e2) && (0 <? current_length_ f));
        [apply Hserialize | reflexivity].
    + unfold ret.
      destruct (bool_decide (NO_ERRORS = e1) && (0 <? current_length_ f));
        [apply Hserialize | reflexivity].
Qed.

(** ** Deserialization *)

(** C5.  Whenever the length varint read from the input transport exceeds
    the capacity, [deserialize] returns [ARRAY_FULL] and the field, logical
    length and storage, is as it was before the call. *)
Theorem deserialize_array_full (MAX_LENGTH : Z) {R : Type}
    `{!ReadBufferInterface R} (buffer buffer' : R) (availiable : Z)
    (f : FieldStringBytes) :
  DeserializeVarint buffer = (NO_ERRORS, availiable, buffer') ->
  MAX_LENGTH < availiable ->
  deserialize MAX_LENGTH buffer f = (ARRAY_FULL, f, buffer').
Proof.
  intros Hvarint Hlen. unfold deserialize. rewrite Hvarint. cbn.
  destruct (Z.geb_spec MAX_LENGTH availiable); [lia | reflexivity].
Qed.

Lemma deserialize_array_full_witness :
  deserialize 4 ([x05; x61; x62; x63; x64; x65] : ReadBuffer)
    (field_with 4 [x31; x32] (new_field 4))
  = (ARRAY_FULL, field_with 4 [x31; x32] (new_field 4),
     [x61; x62; x63; x64; x65]).
Proof.
  apply (deserialize_array_full 4 ([x05; x61; x62; x63; x64; x65] : ReadBuffer)
           [x61; x62; x63; x64; x65] 5).
  - reflexivity.
  - lia.
Defined.

(** *** Reading from a list of bytes *)

Lemma fill_replicate (v : byte) (a : list byte) :
  fill v a = replicate (length a) v.
Proof.
  unfold fill. induction a as [| x a IH]; [reflexivity |].
  cbn. now rewrite <- IH.
Qed.

(** The loop of [deserialize] on a list of bytes, started with [pre] already
    stored: it stores the next [min n (length bytes)] bytes after [pre]. *)
Lemma deserialize_loop_list (n : nat) :
  forall (pre post : list byte) (bytes : ReadBuffer),
    (n <= length post)%nat ->
    Z.of_nat (length pre + length post) < 2 ^ 32 ->
    deserialize_loop n
      {| current_length_ := Z.of_nat (length pre); data_ := pre ++ post |} bytes
    = ({| current_length_ := Z.of_nat (length pre + n `min` length bytes);
          data_ := pre ++ take n bytes ++ drop (n `min` length bytes) post |},
       drop n bytes).
Proof.
  induction n as [| n IH]; intros pre post bytes Hn Hsize.
  - cbn. rewrite Nat.add_0_r. reflexivity.
  - destruct bytes as [| b bytes].
    + cbn. rewrite Nat.add_0_r. reflexivity.
    + destruct post as [| p post]; [cbn in Hn; lia |].
      cbn [deserialize_loop pop ReadBuffer_interface current_length_ data_].
      rewrite uint32_small
        by (unfold is_uint32; cbn [length] in Hsize; lia).
      rewrite Nat2Z.id, insert_app_r_alt, Nat.sub_diag by lia.
      cbn [insert list_insert].
      replace (Z.of_nat (length pre) + 1) with (Z.of_nat (length (pre ++ [b])))
        by (rewrite length_app; cbn; lia).
      replace (pre ++ b :: post) with ((pre ++ [b]) ++ post)
        by (rewrite <- app_assoc; reflexivity).
      cbn [length] in Hn, Hsize.
      rewrite IH by (rewrite ?length_app; cbn; lia).
      cbn [take drop length Nat.min]. rewrite length_app. cbn [length].
      rewrite <- app_assoc. cbn [app].
      do 2 f_equal. lia.
Qed.

(** [deserialize] on a list of bytes, once the length varint is read: the
    field is cleared and takes as many of the following bytes as were
    announced, or as there are. *)
Lemma deserialize_list (MAX_LENGTH availiable : Z) (buffer bytes : ReadBuffer)
    (f : FieldStringBytes) :
  DeserializeVarint buffer = (NO_ERRORS, availiable, bytes) ->
  Z.of_nat (length (data_ f)) = MAX_LENGTH -> MAX_LENGTH < 2 ^ 32 ->
  0 <= availiable <= MAX_LENGTH ->
  let k := (Z.to_nat availiable `min` length bytes)%nat in
  deserialize MAX_LENGTH buffer f
  = (if decide (Z.of_nat k <> availiable) then END_OF_BUFFER else NO_ERRORS,
     {| current_length_ := Z.of_nat k;
        data_ := take k bytes ++ replicate (Z.to_nat MAX_LENGTH - k) x00 |},
     drop k bytes).
Proof.
  intros Hvarint Hsize HM Hav k. unfold deserialize. rewrite Hvarint.
  destruct (decide (NO_ERRORS = NO_ERRORS)); [| congruence].
  destruct (Z.geb_spec MAX_LENGTH availiable); [| lia].
  unfold clear. rewrite fill_replicate. cbn [current_length_].
  rewrite Z.sub_0_r.
  pose proof (deserialize_loop_list (Z.to_nat availiable) []
                (replicate (length (data_ f)) x00) bytes) as Hloop.
  cbn [app length] in Hloop. rewrite length_replicate in Hloop.
  change (Z.of_nat 0) with 0 in Hloop.
  rewrite Hloop by lia. clear Hloop.
  cbn [current_length_ Nat.add]. fold k.
  assert (Hdata :
    take (Z.to_nat availiable) bytes
      ++ drop k (replicate (length (data_ f)) x00)
    = take k bytes ++ replicate (Z.to_nat MAX_LENGTH - k) x00).
  { rewrite drop_replicate. f_equal.
    - unfold k. destruct (Nat.min_spec (Z.to_nat availiable) (length bytes))
        as [[Hlt ->] | [Hge ->]]; [reflexivity |].
      now rewrite !take_ge by lia.
    - f_equal. lia. }
  assert (Hrest : drop (Z.to_nat availiable) bytes = drop k bytes).
  { unfold k. destruct (Nat.min_spec (Z.to_nat availiable) (length bytes))
      as [[Hlt ->] | [Hge ->]]; [reflexivity |].
    now rewrite !drop_ge by lia. }
  rewrite Hdata, Hrest.
  destruct (decide (Z.of_nat k <> availiable)); reflexivity.
Qed.

(** C6.  When the input declares a length [N] within the capacity and runs
    out after [K < N] payload bytes, [deserialize] returns [END_OF_BUFFER]
    and leaves the field with logical length [K] and the [K] bytes stored;
    the rest of the storage holds the zeros of [clear()], not the content
    the field had before. *)
Theorem deserialize_truncated (MAX_LENGTH N : Z) (buffer bytes : ReadBuffer)
    (f : FieldStringBytes) :
  DeserializeVarint buffer = (NO_ERRORS, N, bytes) ->
  Z.of_nat (length (data_ f)) = MAX_LENGTH -> MAX_LENGTH < 2 ^ 32 ->
  Z.of_nat (length bytes) < N <= MAX_LENGTH ->
  deserialize MAX_LENGTH buffer f
  = (END_OF_BUFFER,
     {| current_length_ := Z.of_nat (length bytes);
        data_ :=
          bytes ++ replicate (Z.to_nat MAX_LENGTH - length bytes) x00 |},
     []).
Proof.
  intros Hvarint Hsize HM HK.
  rewrite (deserialize_list MAX_LENGTH N buffer bytes f) by (trivial; lia).
  replace (Z.to_nat N `min` length bytes)%nat with (length bytes) by lia.
  rewrite take_ge, drop_ge by lia.
  destruct (decide (Z.of_nat (length bytes) <> N)); [reflexivity | lia].
Qed.

Lemma deserialize_truncated_witness :
  deserialize 4 ([x03; x61; x62] : ReadBuffer)
    (field_with 4 [x31; x32; x33; x34] (new_field 4))
  = (END_OF_BUFFER,
     {| current_length_ := 2; data_ := [x61; x62; x00; x00] |}, []).
Proof.
  apply (deserialize_truncated 4 3 ([x03; x61; x62] : ReadBuffer) [x61; x62]
           (field_with 4 [x31; x32; x33; x34] (new_field 4))).
  - reflexivity.
  - reflexivity.
  - lia.
  - simpl. lia.
Defined.

(** ** The round trip *)

Lemma MakeTag_uint32 (field_number : Z) (type : WireType) :
  is_uint32 (MakeTag field_number type).
Proof.
  unfold MakeTag, uint32, is_uint32. apply Z.mod_pos_bound. lia.
Qed.

Lemma field_with_payload (MAX_LENGTH : Z) (payload : list byte)
    (f0 : FieldStringBytes) :
  Z.of_nat (length payload) <= MAX_LENGTH ->
  field_with MAX_LENGTH payload f0
  = {| current_length_ := Z.of_nat (length payload);
       data_ := payload ++ drop (length payload) (data_ f0) |}.
Proof.
  intros HL. unfold field_with, set.
  destruct (Z.geb_spec MAX_LENGTH (Z.of_nat (length payload))); [| lia].
  cbn. unfold memcpy. rewrite Nat2Z.id, take_ge by lia. reflexivity.
Qed.

(** What [serialize_with_id] puts into an empty transport with room for it:
    the three parts of a length-delimited entry. *)
Lemma wire_bytes_entry (field_number size : Z) (optional : bool)
    (payload rest : list byte) :
  0 < Z.of_nat (length payload) \/ optional = true ->
  Z.of_nat (length (encode_varint (MakeTag field_number LENGTH_DELIMITED)))
    + Z.of_nat (length (encode_varint (Z.of_nat (length payload))))
    + Z.of_nat (length payload) <= size ->
  serialize_with_id field_number (empty_buffer size) optional
    {| current_length_ := Z.of_nat (length payload); data_ := payload ++ rest |}
  = (NO_ERRORS,
     {| written :=
          encode_varint (MakeTag field_number LENGTH_DELIMITED)
            ++ encode_varint (Z.of_nat (length payload)) ++ payload;
        max_size := size |}).
Proof.
  intros Hemit Hroom.
  rewrite serialize_with_id_writes; cbn [current_length_]; [| | cbn; lia].
  2:{ destruct Hemit as [Hpos | ->]; [| apply orb_true_r].
      apply orb_true_iff. left. now apply Z.ltb_lt. }
  unfold write_tag_length_payload. cbn [current_length_].
  rewrite SerializeVarint_fits by (cbn [empty_buffer written max_size length]; lia).
  rewrite SerializeVarint_fits
    by (cbn [empty_buffer written max_size app]; lia).
  cbn [empty_buffer written max_size app].
  destruct (Z.ltb_spec 0 (Z.of_nat (length payload))) as [Hpos | Hzero].
  - rewrite serialize_fits;
      cbn [current_length_ data_ written max_size];
      rewrite Nat2Z.id, take_app_length.
    + rewrite <- app_assoc. reflexivity.
    + rewrite length_app. lia.
  - destruct payload; [| cbn in Hzero; lia].
    rewrite app_nil_r. reflexivity.
Qed.

(** C1, amended.  For every capacity, every payload of [L] bytes with [L]
    within the capacity and every field of that capacity: after
    [set(payload, L)] and [serialize_with_id] into an empty output transport
    with room for the entry, reading the tag varint from the transport's
    bytes and then [deserialize_check_type] with [LENGTH_DELIMITED] on a
    fresh field from the bytes after the tag leaves that field with logical
    length [L] and the [L] payload bytes, the storage beyond them zero.
    Whenever the field was emitted ([L > 0] or optional) the bytes are the
    tag varint, the varint of [L] and the payload, and the deserialization
    succeeds and consumes them all. *)
Theorem round_trip_after_tag_reproduces (MAX_LENGTH field_number size : Z)
    (optional : bool) (payload : list byte) (f0 : FieldStringBytes) :
  MAX_LENGTH < 2 ^ 32 ->
  Z.of_nat (length payload) <= MAX_LENGTH ->
  Z.of_nat (length (encode_varint (MakeTag field_number LENGTH_DELIMITED)))
    + Z.of_nat (length (encode_varint (Z.of_nat (length payload))))
    + Z.of_nat (length payload) <= size ->
  let reproduced :=
    {| current_length_ := Z.of_nat (length payload);
       data_ := payload ++ replicate (Z.to_nat MAX_LENGTH - length payload) x00 |}
  in
  (round_trip_after_tag MAX_LENGTH field_number size optional payload f0).1.2
  = reproduced
  /\ (0 < Z.of_nat (length payload) \/ optional = true ->
      wire_bytes field_number size optional
        (field_with MAX_LENGTH payload f0)
      = encode_varint (MakeTag field_number LENGTH_DELIMITED)
          ++ encode_varint (Z.of_nat (length payload)) ++ payload
      /\ round_trip_after_tag MAX_LENGTH field_number size optional payload f0
         = (NO_ERRORS, reproduced, [])).
Proof.
  intros HM HL Hroom reproduced.
  assert (Hemitted :
    0 < Z.of_nat (length payload) \/ optional = true ->
    wire_bytes field_number size optional (field_with MAX_LENGTH payload f0)
    = encode_varint (MakeTag field_number LENGTH_DELIMITED)
        ++ encode_varint (Z.of_nat (length payload)) ++ payload
    /\ round_trip_after_tag MAX_LENGTH field_number size optional payload f0
       = (NO_ERRORS, reproduced, [])).
  { intros Hemit.
    assert (Hbytes :
      wire_bytes field_number size optional (field_with MAX_LENGTH payload f0)
      = encode_varint (MakeTag field_number LENGTH_DELIMITED)
          ++ encode_varint (Z.of_nat (length payload)) ++ payload).
    { unfold wire_bytes. rewrite field_with_payload by exact HL.
      rewrite wire_bytes_entry by assumption. reflexivity. }
    split; [exact Hbytes |].
    unfold round_trip_after_tag. rewrite Hbytes.
    rewrite DeserializeVarint_encode by apply MakeTag_uint32.
    unfold deserialize_check_type.
    destruct (decide (LENGTH_DELIMITED = LENGTH_DELIMITED)); [| congruence].
    destruct (decide (NO_ERRORS = NO_ERRORS)); [| congruence].
    rewrite (deserialize_list MAX_LENGTH (Z.of_nat (length payload)) _ payload).
    - rewrite Nat2Z.id, Nat.min_id, take_ge, drop_ge by lia.
      destruct (decide (Z.of_nat (length payload) <> Z.of_nat (length payload)));
        [congruence | reflexivity].
    - apply DeserializeVarint_encode. unfold is_uint32. lia.
    - cbn. rewrite length_replicate. lia.
    - exact HM.
    - lia. }
  split; [| exact Hemitted].
  destruct (Z.ltb_spec 0 (Z.of_nat (length payload))) as [Hpos | Hzero].
  - destruct Hemitted as [_ ->]; [now left | reflexivity].
  - destruct optional.
    + destruct Hemitted as [_ ->]; [now right | reflexivity].
    + destruct payload; [| cbn in Hzero; lia].
      subst reproduced. unfold round_trip_after_tag, wire_bytes.
      rewrite field_with_payload by exact HL.
      cbn. rewrite Nat.sub_0_r. reflexivity.
Qed.

Lemma round_trip_after_tag_reproduces_witness :
  (round_trip_after_tag 8 1 100 false [x61; x62; x63] (new_field 8)).1.2
  = {| current_length_ := 3;
       data_ := [x61; x62; x63; x00; x00; x00; x00; x00] |}
  /\ wire_bytes 1 100 false (field_with 8 [x61; x62; x63] (new_field 8))
     = [x0a; x03; x61; x62; x63]
  /\ round_trip_after_tag 8 1 100 false [x61; x62; x63] (new_field 8)
     = (NO_ERRORS,
        {| current_length_ := 3;
           data_ := [x61; x62; x63; x00; x00; x00; x00; x00] |}, []).
Proof.
  destruct (round_trip_after_tag_reproduces 8 1 100 false [x61; x62; x63]
              (new_field 8)) as [Hfield Hemitted].
  - lia.
  - simpl. lia.
  - vm_compute. discriminate.
  - split; [exact Hfield |].
    apply Hemitted. left. simpl. lia.
Defined.

(** C1 as stated fails: [serialize_with_id] writes the tag first and
    [deserialize_check_type] starts at the length.  With capacity 8, field
    number 1 and the payload "abc" the tag byte 10 is taken for the length,
    the call returns [ARRAY_FULL] and the fresh field keeps length 0. *)
Lemma round_trip_reads_tag_as_length :
  round_trip 8 1 100 false [x61; x62; x63] (new_field 8)
  = (ARRAY_FULL, new_field 8, [x03; x61; x62; x63])
  /\ get_length (round_trip 8 1 100 false [x61; x62; x63] (new_field 8)).1.2
     <> 3.
Proof. split; [reflexivity | discriminate]. Qed.

(** ** Assignment of a C string *)

Lemma c_str_no_terminator (str : list byte) : x00 ∉ c_str str.
Proof.
  induction str as [| c rest IH]; cbn.
  - apply not_elem_of_nil.
  - destruct (decide (c = x00)) as [-> | Hc].
    + apply not_elem_of_nil.
    + rewrite elem_of_cons. intros [Heq | Hin]; [congruence | contradiction].
Qed.

Lemma elem_of_take_inv (x : byte) (n : nat) (l : list byte) :
  x ∈ take n l -> x ∈ l.
Proof.
  intros Hin. rewrite <- (take_drop n l). apply elem_of_app. now left.
Qed.

(** [strncpy] with room for the terminator writes the characters and one
    terminator. *)
Lemma strncpy_with_terminator (dst src : list byte) :
  strncpy dst src (strlen src + 1)
  = c_str src ++ [x00] ++ drop (length (c_str src) + 1) dst.
Proof.
  unfold strncpy, strlen.
  replace (Z.to_nat (Z.of_nat (length (c_str src)) + 1))
    with (length (c_str src) + 1)%nat by lia.
  rewrite take_app_add'
    by reflexivity.
  rewrite <- app_assoc. do 2 f_equal.
  rewrite Nat.add_comm. reflexivity.
Qed.

(** [strncpy] of fewer elements than the string has characters writes
    characters only. *)
Lemma strncpy_without_terminator (dst src : list byte) (n : Z) :
  n <= strlen src ->
  strncpy dst src n
  = take (Z.to_nat n) (c_str src) ++ drop (Z.to_nat n) dst.
Proof.
  unfold strncpy, strlen. intros Hn.
  rewrite take_app_le by lia. reflexivity.
Qed.

(** C9, amended.  Assigning a null pointer to a text field clears it.
    Assigning a string of [S] characters, [S] below [2 ^ 32], sets the
    logical length to [min(S, capacity)], stores that many characters of
    the string and, only if that length is below the capacity, one
    terminator after them; the rest of the storage is as before.  When
    [S >= capacity] the field ends with [get_length() == capacity] and no
    terminator anywhere in its storage. *)
Theorem FieldString_set_c_string (MAX_LENGTH : Z) (f : FieldStringBytes) :
  0 <= MAX_LENGTH < 2 ^ 32 ->
  Z.of_nat (length (data_ f)) = MAX_LENGTH ->
  (FieldString_set MAX_LENGTH None f = clear f
   /\ clear f = new_field MAX_LENGTH)
  /\ (forall str : list byte,
        strlen str < 2 ^ 32 ->
        FieldString_set MAX_LENGTH (Some str) f
        = {| current_length_ := Z.min (strlen str) MAX_LENGTH;
             data_ :=
               text_storage MAX_LENGTH (Z.min (strlen str) MAX_LENGTH)
                 (c_str str) (data_ f) |}
        /\ (MAX_LENGTH <= strlen str ->
            get_length (FieldString_set MAX_LENGTH (Some str) f) = MAX_LENGTH
            /\ x00 ∉ data_ (FieldString_set MAX_LENGTH (Some str) f))).
Proof.
  intros HM Hsize. split.
  - split; [reflexivity |].
    unfold clear, new_field. rewrite fill_replicate.
    do 2 f_equal. lia.
  - intros str Hstr.
    assert (Hlen : 0 <= strlen str) by (unfold strlen; lia).
    assert (Hset :
      FieldString_set MAX_LENGTH (Some str) f
      = {| current_length_ := Z.min (strlen str) MAX_LENGTH;
           data_ :=
             text_storage MAX_LENGTH (Z.min (strlen str) MAX_LENGTH)
               (c_str str) (data_ f) |}).
    { unfold FieldString_set, set_length, get_length, text_storage.
      cbn [current_length_ data_].
      rewrite (uint32_small (strlen str)) by (unfold is_uint32; lia).
      f_equal.
      destruct (Z.gtb_spec MAX_LENGTH (Z.min (strlen str) MAX_LENGTH))
        as [Hroom | Hfull];
        destruct (Z.ltb_spec (Z.min (strlen str) MAX_LENGTH) MAX_LENGTH);
        try lia.
      - rewrite uint32_small by (unfold is_uint32; lia).
        replace (Z.min (strlen str) MAX_LENGTH) with (strlen str) by lia.
        rewrite strncpy_with_terminator. unfold strlen.
        rewrite Nat2Z.id, take_ge by lia. reflexivity.
      - apply strncpy_without_terminator. lia. }
    split; [exact Hset |].
    intros Hfull. rewrite Hset. unfold get_length, text_storage.
    cbn [current_length_ data_].
    replace (Z.min (strlen str) MAX_LENGTH) with MAX_LENGTH by lia.
    split; [reflexivity |].
    rewrite Z.ltb_irrefl, drop_ge, app_nil_r by lia.
    intros Hin. apply elem_of_take_inv in Hin.
    now apply c_str_no_terminator in Hin.
Qed.

Lemma FieldString_set_c_string_witness :
  ((FieldString_set 3 None (field_with 3 [x31; x32; x33] (new_field 3))
    = clear (field_with 3 [x31; x32; x33] (new_field 3))
    /\ clear (field_with 3 [x31; x32; x33] (new_field 3)) = new_field 3)
   /\ FieldString_set 3 (Some [x61; x62; x63; x64; x00])
        (field_with 3 [x31; x32; x33] (new_field 3))
      = {| current_length_ := Z.min (strlen [x61; x62; x63; x64; x00]) 3;
           data_ :=
             text_storage 3 (Z.min (strlen [x61; x62; x63; x64; x00]) 3)
               (c_str [x61; x62; x63; x64; x00])
               (data_ (field_with 3 [x31; x32; x33] (new_field 3))) |}
   /\ get_length
        (FieldString_set 3 (Some [x61; x62; x63; x64; x00])
           (field_with 3 [x31; x32; x33] (new_field 3))) = 3
   /\ x00 ∉ data_
            (FieldString_set 3 (Some [x61; x62; x63; x64; x00])
               (field_with 3 [x31; x32; x33] (new_field 3))))
  /\ FieldString_set 6 (Some [x61; x62; x00; x63])
       (field_with 6 [x31; x32; x33; x34; x35] (new_field 6))
     = {| current_length_ := Z.min (strlen [x61; x62; x00; x63]) 6;
          data_ :=
            text_storage 6 (Z.min (strlen [x61; x62; x00; x63]) 6)
              (c_str [x61; x62; x00; x63])
              (data_
                 (field_with 6 [x31; x32; x33; x34; x35] (new_field 6))) |}.
Proof.
  split.
  - destruct (FieldString_set_c_string 3
                (field_with 3 [x31; x32; x33] (new_field 3)))
      as [Hnull Hstr].
    + lia.
    + reflexivity.
    + destruct (Hstr [x61; x62; x63; x64; x00]) as [Hset Hfull].
      * vm_compute. reflexivity.
      * split; [exact Hnull |]. split; [exact Hset |].
        apply Hfull. vm_compute. discriminate.
  - destruct (FieldString_set_c_string 6
                (field_with 6 [x31; x32; x33; x34; x35] (new_field 6)))
      as [_ Hstr].
    + lia.
    + reflexivity.
    + apply Hstr. vm_compute. reflexivity.
Defined.

(** The logical length [FieldString::set] leaves, for every string. *)
Lemma get_length_FieldString_set (MAX_LENGTH : Z) (str : list byte)
    (f : FieldStringBytes) :
  get_length (FieldString_set MAX_LENGTH (Some str) f)
  = Z.min (uint32 (strlen str)) MAX_LENGTH.
Proof. reflexivity. Qed.

Lemma strlen_replicate (n : nat) (c : byte) (rest : list byte) :
  c <> x00 -> strlen (replicate n c ++ x00 :: rest) = Z.of_nat n.
Proof.
  intros Hc. unfold strlen.
  assert (Hchars : c_str (replicate n c ++ x00 :: rest) = replicate n c).
  { induction n as [| n IH]; cbn; [reflexivity |].
    destruct (decide (c = x00)); [congruence |]. now rewrite IH. }
  rewrite Hchars, length_replicate. reflexivity.
Qed.

(** C9 as stated fails for a string of [2 ^ 32] characters or more where
    [size_t] is wider than 32 bits: [strlen] is converted to [uint32_t]
    before it is clamped.  For [2 ^ 32 + 1] times the character "a" and
    capacity 4 the logical length becomes 1, not [min(S, capacity) = 4]. *)
Lemma FieldString_set_wraps_strlen :
  strlen (replicate (Z.to_nat (2 ^ 32 + 1)) x61 ++ [x00]) = 2 ^ 32 + 1
  /\ get_length
       (FieldString_set 4
          (Some (replicate (Z.to_nat (2 ^ 32 + 1)) x61 ++ [x00]))
          (new_field 4))
     = 1
  /\ get_length
       (FieldString_set 4
          (Some (replicate (Z.to_nat (2 ^ 32 + 1)) x61 ++ [x00]))
          (new_field 4))
     <> Z.min (strlen (replicate (Z.to_nat (2 ^ 32 + 1)) x61 ++ [x00])) 4.
Proof.
  assert (Hpos : 0 <= 2 ^ 32 + 1) by (vm_compute; discriminate).
  rewrite get_length_FieldString_set.
  rewrite strlen_replicate by discriminate.
  rewrite (Z2Nat.id _ Hpos).
  split; [reflexivity |]. split; [reflexivity |].
  vm_compute. discriminate.
Qed.

(** Section 8, properties 7 and 8, on "abc": with capacity 4 the terminator
    is stored, with capacity 3 and with capacity 2 it is not. *)
Example assign_abc :
  FieldString_set 4 (Some [x61; x62; x63; x00]) (new_field 4)
  = {| current_length_ := 3; data_ := [x61; x62; x63; x00] |}
  /\ FieldString_set 3 (Some [x61; x62; x63; x00])
       (field_with 3 [x31; x32; x33] (new_field 3))
     = {| current_length_ := 3; data_ := [x61; x62; x63] |}
  /\ FieldString_set 2 (Some [x61; x62; x63; x00]) (new_field 2)
     = {| current_length_ := 2; data_ := [x61; x62] |}.
Proof. repeat split. Qed.

(** ** The class invariant *)

Section Invariant.

Variable MAX_LENGTH : Z.
Hypothesis capacity : 0 <= MAX_LENGTH < 2 ^ 32.

Context {W R : Type} `{!WriteBufferInterface W} `{!ReadBufferInterface R}.

Lemma new_field_inv : field_inv MAX_LENGTH (new_field MAX_LENGTH).
Proof.
  unfold field_inv, new_field. cbn. rewrite length_replicate. lia.
Qed.

Lemma clear_inv (f : FieldStringBytes) :
  field_inv MAX_LENGTH f -> field_inv MAX_LENGTH (clear f).
Proof.
  unfold field_inv, clear. cbn. rewrite fill_replicate, length_replicate.
  lia.
Qed.

Lemma get_inv (index : Z) (f : FieldStringBytes) :
  is_uint32 index -> 0 < MAX_LENGTH ->
  field_inv MAX_LENGTH f -> field_inv MAX_LENGTH (get MAX_LENGTH index f).2.
Proof.
  unfold is_uint32, field_inv. intros Hi Hpos [Hlen Hsize].
  rewrite get_clamped by lia. cbn. compare_cases; lia.
Qed.

Lemma assign_inv (slot : Z) (v : byte) (f : FieldStringBytes) :
  field_inv MAX_LENGTH f -> field_inv MAX_LENGTH (assign slot v f).
Proof. unfold field_inv, assign. cbn. rewrite length_insert. trivial. Qed.

Lemma set_inv (data : list byte) (len : Z) (f : FieldStringBytes) :
  is_uint32 len ->
  (len <= MAX_LENGTH -> len <= Z.of_nat (length data)) ->
  field_inv MAX_LENGTH f -> field_inv MAX_LENGTH (set MAX_LENGTH data len f).2.
Proof.
  unfold is_uint32, field_inv, set. intros Hlen Hdata [Hcur Hsize].
  compare_cases; cbn; [| lia].
  rewrite length_memcpy by lia. lia.
Qed.

Lemma set_length_inv (len : Z) (f : FieldStringBytes) :
  0 <= len ->
  field_inv MAX_LENGTH f -> field_inv MAX_LENGTH (set_length MAX_LENGTH len f).
Proof. unfold field_inv, set_length. cbn. lia. Qed.

Lemma length_strncpy (dst src : list byte) (n : Z) :
  n <= Z.of_nat (length dst) -> length (strncpy dst src n) = length dst.
Proof.
  intros Hn. unfold strncpy.
  rewrite length_app, length_take, length_app, length_replicate, length_drop.
  lia.
Qed.

Lemma FieldString_set_inv (str : option (list byte)) (f : FieldStringBytes) :
  field_inv MAX_LENGTH f ->
  field_inv MAX_LENGTH (FieldString_set MAX_LENGTH str f).
Proof.
  intros Hf. destruct str as [s |]; [| now apply clear_inv].
  unfold FieldString_set.
  assert (Hrange : 0 <= uint32 (strlen s))
    by (unfold uint32; apply Z.mod_pos_bound; lia).
  pose proof (set_length_inv (uint32 (strlen s)) f Hrange Hf) as [Hcur Hsize].
  unfold get_length.
  set (f1 := set_length MAX_LENGTH (uint32 (strlen s)) f) in *.
  split; cbn [current_length_ data_]; [exact Hcur |].
  rewrite length_strncpy; [exact Hsize |].
  compare_cases; [no_wrap |]; lia.
Qed.

(** Whatever the transport delivers, the value [DeserializeVarint] hands
    back is a [uint32_t]. *)
Lemma read_varint_uint32 (n : nat) :
  forall (shift temp_value : Z) (buffer : R),
    is_uint32 (read_varint n shift temp_value buffer).1.2.
Proof.
  assert (Hwrap : forall z, is_uint32 (uint32 z))
    by (intros z; unfold is_uint32, uint32; apply Z.mod_pos_bound; lia).
  assert (Hzero : is_uint32 0) by (unfold is_uint32; lia).
  induction n as [| n IH]; intros shift temp_value buffer; cbn;
    destruct (pop buffer) as [[b |] buffer']; cbn; trivial;
    destruct (byte.unsigned b <? 128); cbn; trivial.
Qed.

(** The loop of [deserialize] stores at most the [n] elements it was asked
    for and keeps the size of the storage. *)
Lemma deserialize_loop_inv (n : nat) :
  forall (f : FieldStringBytes) (buffer : R),
    0 <= current_length_ f ->
    current_length_ f + Z.of_nat n <= MAX_LENGTH ->
    current_length_ f
      <= current_length_ (deserialize_loop n f buffer).1
      <= current_length_ f + Z.of_nat n
    /\ length (data_ (deserialize_loop n f buffer).1) = length (data_ f).
Proof.
  induction n as [| n IH]; intros f buffer Hcur Hn; cbn.
  - lia.
  - destruct (pop buffer) as [[b |] buffer']; cbn; [| lia].
    set (f' := {| current_length_ := uint32 (current_length_ f + 1);
                  data_ := <[Z.to_nat (current_length_ f) := b]> (data_ f) |}).
    assert (Hf' : current_length_ f' = current_length_ f + 1)
      by (cbn; apply uint32_small; unfold is_uint32; lia).
    destruct (IH f' buffer') as [Hlen Hsize]; [lia | lia |].
    rewrite Hsize. cbn. rewrite length_insert. lia.
Qed.

Lemma deserialize_inv (buffer : R) (f : FieldStringBytes) :
  field_inv MAX_LENGTH f ->
  field_inv MAX_LENGTH (deserialize MAX_LENGTH buffer f).1.2.
Proof.
  intros Hf. unfold deserialize, DeserializeVarint.
  pose proof (read_varint_uint32 4 0 0 buffer) as Hrange.
  destruct (read_varint 4 0 0 buffer) as [[e availiable] buffer1].
  cbn in Hrange. unfold is_uint32 in Hrange.
  destruct (decide (NO_ERRORS = e)); [| exact Hf].
  destruct (Z.geb_spec MAX_LENGTH availiable); [| exact Hf].
  pose proof (clear_inv f Hf) as [Hcur Hsize].
  pose proof (deserialize_loop_inv
                (Z.to_nat (availiable - current_length_ (clear f)))
                (clear f) buffer1) as Hloop.
  destruct (deserialize_loop _ (clear f) buffer1) as [f1 buffer2].
  cbn [fst] in Hloop. cbn [current_length_ clear] in Hloop, Hcur.
  destruct Hloop as [Hlen Hdata]; [lia | lia |].
  assert (Hf1 : field_inv MAX_LENGTH f1)
    by (unfold field_inv; rewrite Hdata; split; [lia | exact Hsize]).
  destruct (decide (current_length_ f1 <> availiable)); exact Hf1.
Qed.

Lemma deserialize_check_type_inv (buffer : R) (wire_type : WireType)
    (f : FieldStringBytes) :
  field_inv MAX_LENGTH f ->
  field_inv MAX_LENGTH
    (deserialize_check_type MAX_LENGTH buffer wire_type f).1.2.
Proof.
  intros Hf. unfold deserialize_check_type.
  destruct (decide (LENGTH_DELIMITED = wire_type)); cbn; [| exact Hf].
  now apply deserialize_inv.
Qed.

(** Every admissible call keeps the invariant. *)
Lemma call_inv (op : operation (W := W) (R := R)) (f : FieldStringBytes) :
  admissible MAX_LENGTH op ->
  field_inv MAX_LENGTH f -> field_inv MAX_LENGTH (call MAX_LENGTH op f).2.
Proof.
  intros Hop Hf.
  destruct op; cbn [admissible] in Hop; cbn [call snd]; try exact Hf.
  - destruct Hop as [Hindex Hpos].
    pose proof (get_inv index f Hindex Hpos Hf) as Hget.
    destruct (get MAX_LENGTH index f) as [slot f'].
    destruct store; [now apply assign_inv | exact Hget].
  - destruct (get_const_checked index value f). exact Hf.
  - destruct Hop as [Hlen Hdata].
    pose proof (set_inv data len f Hlen Hdata Hf) as Hset.
    destruct (set MAX_LENGTH data len f). exact Hset.
  - unfold set_from, get_const_ptr, get_length.
    assert (Hset :
      field_inv MAX_LENGTH
        (set MAX_LENGTH (data_ rhs) (current_length_ rhs) f).2).
    { destruct (Z.le_gt_cases (current_length_ rhs) MAX_LENGTH).
      - apply set_inv; [unfold is_uint32 | | exact Hf]; lia.
      - unfold set. destruct (Z.geb_spec MAX_LENGTH (current_length_ rhs));
          [lia | exact Hf]. }
    destruct (set MAX_LENGTH (data_ rhs) (current_length_ rhs) f). exact Hset.
  - destruct (serialize_with_id field_number buffer optional f). exact Hf.
  - destruct (serialize buffer f). exact Hf.
  - pose proof (deserialize_inv buffer f Hf) as Hd.
    destruct (deserialize MAX_LENGTH buffer f) as [[e f'] buffer']. exact Hd.
  - pose proof (deserialize_check_type_inv buffer wire_type f Hf) as Hd.
    destruct (deserialize_check_type MAX_LENGTH buffer wire_type f)
      as [[e f'] buffer'].
    exact Hd.
  - now apply clear_inv.
  - now apply FieldString_set_inv.
Qed.

End Invariant.

(** C2.  A default constructed field satisfies the invariant, and from any
    field that does, every sequence of public calls keeps it: after every
    call the logical length lies between 0 and the capacity and the storage
    still has exactly [capacity] elements. *)
Theorem invariant_after_every_call (MAX_LENGTH : Z) {W R : Type}
    `{!WriteBufferInterface W} `{!ReadBufferInterface R}
    (ops : list (operation (W := W) (R := R))) (f : FieldStringBytes) :
  0 <= MAX_LENGTH < 2 ^ 32 ->
  Forall (admissible MAX_LENGTH) ops ->
  field_inv MAX_LENGTH (new_field MAX_LENGTH)
  /\ (field_inv MAX_LENGTH f ->
      Forall (field_inv MAX_LENGTH) (run MAX_LENGTH ops f)).
Proof.
  intros HM Hops. split; [now apply new_field_inv |].
  revert f. induction Hops as [| op ops Hop Hops IH]; intros f Hf; cbn.
  - constructor.
  - pose proof (call_inv MAX_LENGTH HM op f Hop Hf) as Hf'.
    constructor; [exact Hf' | now apply IH].
Qed.

Lemma invariant_after_every_call_witness :
  field_inv 4 (new_field 4)
  /\ Forall (field_inv 4)
       (run 4
           [call_get 1 (Some x61);
            call_get 7 None;
            call_set [x31; x32; x33] 3;
            call_set [x31; x32; x33; x34; x35] 5;
            call_serialize_with_id 1 (empty_buffer 16) false;
            call_deserialize ([x03; x61] : ReadBuffer);
            call_set_from (new_field 2);
            call_assign (Some [x61; x62; x63; x64; x65; x00]);
            call_clear]
           (new_field 4)).
Proof.
  destruct (invariant_after_every_call 4
           [call_get 1 (Some x61);
            call_get 7 None;
            call_set [x31; x32; x33] 3;
            call_set [x31; x32; x33; x34; x35] 5;
            call_serialize_with_id 1 (empty_buffer 16) false;
            call_deserialize ([x03; x61] : ReadBuffer);
            call_set_from (new_field 2);
            call_assign (Some [x61; x62; x63; x64; x65; x00]);
            call_clear]
           (new_field 4)) as [Hnew Hrun].
  - lia.
  - repeat constructor; unfold is_uint32; simpl; lia.
  - split; [exact Hnew |]. apply Hrun.
    unfold field_inv. simpl. lia.
Defined.

(** * Further properties of the field *)

(** ** Reading elements *)

Lemma lookup_total_of_lookup (l : list byte) (i : nat) (x : byte) :
  l !! i = Some x -> l !!! i = x.
Proof. intros Hl. rewrite list_lookup_total_alt, Hl. reflexivity. Qed.

Lemma lookup_total_eq (l k : list byte) (i : nat) :
  l !! i = k !! i -> l !!! i = k !!! i.
Proof. intros Hl. rewrite !list_lookup_total_alt, Hl. reflexivity. Qed.

(** X1.  After a successful [set(data, length)] the checked read
    [get_const(index, value)] returns [NO_ERRORS] and the element of [data]
    at every index below [length], and [INDEX_OUT_OF_BOUND] with [value]
    untouched at every index from [length] on, also where the storage still
    holds elements of an earlier, longer content. *)
Theorem checked_read_after_set (MAX_LENGTH : Z) (data : list byte)
    (len index : Z) (value : byte) (f : FieldStringBytes) :
  0 <= len <= MAX_LENGTH -> len <= Z.of_nat (length data) -> 0 <= index ->
  (index < len ->
   get_const_checked index value (set MAX_LENGTH data len f).2
   = (NO_ERRORS, data !!! Z.to_nat index))
  /\ (len <= index ->
      get_const_checked index value (set MAX_LENGTH data len f).2
      = (INDEX_OUT_OF_BOUND, value)).
Proof.
  intros Hlen Hdata Hindex. unfold set, get_const_checked.
  destruct (Z.geb_spec MAX_LENGTH len); [| lia]. cbn.
  split; intros Hi; compare_cases; try lia; [f_equal | reflexivity].
  apply lookup_total_eq, lookup_memcpy_lt; lia.
Qed.

Lemma checked_read_after_set_witness :
  get_const_checked 1 x2a
    (set 4 [x61; x62] 2 (field_with 4 [x31; x32; x33] (new_field 4))).2
  = (NO_ERRORS, x62)
  /\ get_const_checked 2 x2a
       (set 4 [x61; x62] 2 (field_with 4 [x31; x32; x33] (new_field 4))).2
     = (INDEX_OUT_OF_BOUND, x2a).
Proof.
  split.
  - apply (checked_read_after_set 4 [x61; x62] 2 1 x2a
             (field_with 4 [x31; x32; x33] (new_field 4)));
      simpl; lia.
  - apply (checked_read_after_set 4 [x61; x62] 2 2 x2a
             (field_with 4 [x31; x32; x33] (new_field 4)));
      simpl; lia.
Defined.



(** X3.  A value stored through the reference [get(index)] returns is read
    back by [get_const(index)] at the same index and by the checked read at
    the slot the reference designates, which lies within the logical length
    after the call; every other slot of the storage keeps its element. *)
Theorem read_after_write_through_get (MAX_LENGTH index : Z) (v value : byte)
    (f : FieldStringBytes) :
  0 < MAX_LENGTH < 2 ^ 32 ->
  Z.of_nat (length (data_ f)) = MAX_LENGTH ->
  0 <= index ->
  let slot := (get MAX_LENGTH index f).1 in
  let f' := assign slot v (get MAX_LENGTH index f).2 in
  get_const MAX_LENGTH index f' = v
  /\ get_const_checked slot value f' = (NO_ERRORS, v)
  /\ (forall j : nat, j <> Z.to_nat slot -> data_ f' !! j = data_ f !! j).
Proof.
  intros HM Hsize Hindex. rewrite get_clamped by lia. cbn [fst snd].
  unfold get_const, get_const_checked, assign. cbn [current_length_ data_].
  rewrite (uint32_small (MAX_LENGTH - 1)) by (unfold is_uint32; lia).
  assert (Hread :
    <[Z.to_nat (Z.min index (MAX_LENGTH - 1)) := v]> (data_ f)
      !!! Z.to_nat (Z.min index (MAX_LENGTH - 1)) = v).
  { apply lookup_total_of_lookup, list_lookup_insert_eq. lia. }
  split; [exact Hread |]. split.
  - rewrite Hread. compare_cases; try lia; reflexivity.
  - intros j Hj. apply list_lookup_insert_ne. congruence.
Qed.

Lemma read_after_write_through_get_witness :
  get_const 3 5 (assign (get 3 5 (new_field 3)).1 x61 (get 3 5 (new_field 3)).2)
  = x61
  /\ get_const_checked (get 3 5 (new_field 3)).1 x2a
       (assign (get 3 5 (new_field 3)).1 x61 (get 3 5 (new_field 3)).2)
     = (NO_ERRORS, x61)
  /\ (forall j : nat,
        j <> Z.to_nat (get 3 5 (new_field 3)).1 ->
        data_ (assign (get 3 5 (new_field 3)).1 x61 (get 3 5 (new_field 3)).2)
          !! j
        = data_ (new_field 3) !! j).
Proof.
  apply (read_after_write_through_get 3 5 x61 x2a (new_field 3)).
  - lia.
  - reflexivity.
  - lia.
Defined.

(** X4.  [set] does not erase what it does not overwrite, and [get] grows
    the logical length without touching the storage: after a content of
    [n1] elements was replaced by a shorter one of [n2] elements, [get(j)]
    at an index [j] with [n2 <= j < n1] makes the length [j + 1] and the
    checked read at [j] then succeeds with the element of the earlier
    content. *)
Theorem get_exposes_earlier_content (MAX_LENGTH : Z) (data1 data2 : list byte)
    (n1 n2 j : Z) (value : byte) (f : FieldStringBytes) :
  MAX_LENGTH < 2 ^ 32 ->
  0 <= n2 -> n2 <= j < n1 -> n1 <= MAX_LENGTH ->
  n1 <= Z.of_nat (length data1) -> n2 <= Z.of_nat (length data2) ->
  let f2 := (set MAX_LENGTH data2 n2 (set MAX_LENGTH data1 n1 f).2).2 in
  (get MAX_LENGTH j f2).1 = j
  /\ get_length (get MAX_LENGTH j f2).2 = j + 1
  /\ get_const_checked j value (get MAX_LENGTH j f2).2
     = (NO_ERRORS, data1 !!! Z.to_nat j).
Proof.
  intros HM Hn2 Hj Hn1 Hdata1 Hdata2 f2.
  assert (Hf2 :
    f2 = {| current_length_ := n2;
            data_ := memcpy (memcpy (data_ f) data1 n1) data2 n2 |}).
  { subst f2. unfold set.
    destruct (Z.geb_spec MAX_LENGTH n1); [| lia].
    destruct (Z.geb_spec MAX_LENGTH n2); [| lia]. reflexivity. }
  rewrite get_clamped by lia. rewrite Hf2. cbn [fst snd current_length_ data_].
  unfold get_length, get_const_checked. cbn [current_length_ data_].
  replace (Z.min j (MAX_LENGTH - 1)) with j by lia.
  split; [reflexivity |].
  destruct (Z.geb_spec j n2); [| lia].
  split; [reflexivity |].
  destruct (Z.ltb_spec j (j + 1)); [| lia].
  f_equal. apply lookup_total_eq.
  rewrite lookup_memcpy_ge by lia.
  apply lookup_memcpy_lt; lia.
Qed.

Lemma get_exposes_earlier_content_witness :
  (get 4 2 (set 4 [x61] 1 (set 4 [x31; x32; x33] 3 (new_field 4)).2).2).1 = 2
  /\ get_length
       (get 4 2 (set 4 [x61] 1 (set 4 [x31; x32; x33] 3 (new_field 4)).2).2).2
     = 2 + 1
  /\ get_const_checked 2 x2a
       (get 4 2 (set 4 [x61] 1 (set 4 [x31; x32; x33] 3 (new_field 4)).2).2).2
     = (NO_ERRORS, [x31; x32; x33] !!! Z.to_nat 2).
Proof.
  apply (get_exposes_earlier_content 4 [x31; x32; x33] [x61] 3 1 2 x2a
           (new_field 4)); simpl; lia.
Defined.

(** ** More on deserialization *)

(** X5.  When the input holds at least the [N] bytes it declares and [N] is
    within the capacity, [deserialize] returns [NO_ERRORS], the field holds
    exactly the first [N] bytes after the length with logical length [N]
    and zeros in the rest of the storage, and the input is left at the byte
    that follows the payload: nothing beyond the declared length is
    consumed. *)
Theorem deserialize_consumes_declared_length (MAX_LENGTH N : Z)
    (buffer bytes : ReadBuffer) (f : FieldStringBytes) :
  DeserializeVarint buffer = (NO_ERRORS, N, bytes) ->
  Z.of_nat (length (data_ f)) = MAX_LENGTH -> MAX_LENGTH < 2 ^ 32 ->
  0 <= N <= MAX_LENGTH -> N <= Z.of_nat (length bytes) ->
  deserialize MAX_LENGTH buffer f
  = (NO_ERRORS,
     {| current_length_ := N;
        data_ :=
          take (Z.to_nat N) bytes
            ++ replicate (Z.to_nat MAX_LENGTH - Z.to_nat N) x00 |},
     drop (Z.to_nat N) bytes).
Proof.
  intros Hvarint Hsize HM HN Hbytes.
  rewrite (deserialize_list MAX_LENGTH N buffer bytes f) by (trivial; lia).
  replace (Z.to_nat N `min` length bytes)%nat with (Z.to_nat N) by lia.
  rewrite Z2Nat.id by lia.
  destruct (decide (N <> N)); [congruence | reflexivity].
Qed.

Lemma deserialize_consumes_declared_length_witness :
  deserialize 4 ([x02; x61; x62; x0a; x01; x63] : ReadBuffer)
    (field_with 4 [x31; x32; x33; x34] (new_field 4))
  = (NO_ERRORS,
     {| current_length_ := 2; data_ := [x61; x62; x00; x00] |},
     [x0a; x01; x63]).
Proof.
  apply (deserialize_consumes_declared_length 4 2
           ([x02; x61; x62; x0a; x01; x63] : ReadBuffer)
           [x61; x62; x0a; x01; x63]
           (field_with 4 [x31; x32; x33; x34] (new_field 4))).
  - reflexivity.
  - reflexivity.
  - lia.
  - lia.
  - simpl. lia.
Defined.

Section DeserializeAnyTransport.

Variable MAX_LENGTH : Z.

Context {R : Type} `{!ReadBufferInterface R}.

(** The loop of [deserialize] keeps the storage zero from the logical length
    on. *)
Lemma deserialize_loop_zero_tail (n : nat) :
  forall (f : FieldStringBytes) (buffer : R),
    0 <= current_length_ f ->
    current_length_ f + Z.of_nat n < 2 ^ 32 ->
    (forall i : nat,
       current_length_ f <= Z.of_nat i -> (i < length (data_ f))%nat ->
       data_ f !! i = Some x00) ->
    forall i : nat,
      current_length_ (deserialize_loop n f buffer).1 <= Z.of_nat i ->
      (i < length (data_ (deserialize_loop n f buffer).1))%nat ->
      data_ (deserialize_loop n f buffer).1 !! i = Some x00.
Proof.
  induction n as [| n IH]; intros f buffer Hcur Hn Hzero; cbn.
  - exact Hzero.
  - destruct (pop buffer) as [[b |] buffer']; cbn; [| exact Hzero].
    apply IH; cbn [current_length_ data_].
    + no_wrap. lia.
    + no_wrap. lia.
    + intros i. no_wrap. rewrite length_insert. intros Hi Hlt.
      rewrite list_lookup_insert_ne by lia. apply Hzero; lia.
Qed.

(** X6.  Once the length varint is read and fits the capacity,
    [deserialize] keeps nothing of what the field held: whether it then
    succeeds or runs out of input, every element of the storage from the
    new logical length on is zero, and two fields of the same storage size
    end up equal. *)
Theorem deserialize_keeps_no_earlier_content (buffer buffer1 : R)
    (availiable : Z) (f : FieldStringBytes) :
  DeserializeVarint buffer = (NO_ERRORS, availiable, buffer1) ->
  availiable <= MAX_LENGTH ->
  (forall i : nat,
     current_length_ (deserialize MAX_LENGTH buffer f).1.2 <= Z.of_nat i ->
     (i < length (data_ (deserialize MAX_LENGTH buffer f).1.2))%nat ->
     data_ (deserialize MAX_LENGTH buffer f).1.2 !! i = Some x00)
  /\ (forall g : FieldStringBytes,
        length (data_ g) = length (data_ f) ->
        deserialize MAX_LENGTH buffer g = deserialize MAX_LENGTH buffer f).
Proof.
  intros Hvarint Hfits.
  assert (Hrange : is_uint32 availiable).
  { pose proof (read_varint_uint32 4 0 0 buffer) as Hr.
    unfold DeserializeVarint in Hvarint. rewrite Hvarint in Hr. exact Hr. }
  unfold is_uint32 in Hrange.
  split.
  - unfold deserialize. rewrite Hvarint.
    destruct (decide (NO_ERRORS = NO_ERRORS)); [| congruence].
    destruct (Z.geb_spec MAX_LENGTH availiable); [| lia].
    pose proof (deserialize_loop_zero_tail
                  (Z.to_nat (availiable - current_length_ (clear f)))
                  (clear f) buffer1) as Hloop.
    destruct (deserialize_loop _ (clear f) buffer1) as [f1 buffer2].
    cbn [fst current_length_ clear] in Hloop.
    assert (Hzero : forall i : nat,
      current_length_ f1 <= Z.of_nat i -> (i < length (data_ f1))%nat ->
      data_ f1 !! i = Some x00).
    { apply Hloop; [lia | lia |].
      intros i _ Hi. unfold clear in Hi |- *. cbn [data_] in Hi |- *.
      rewrite fill_replicate in Hi |- *. rewrite length_replicate in Hi.
      apply lookup_replicate_2. exact Hi. }
    destruct (decide (current_length_ f1 <> availiable)); exact Hzero.
  - intros g Hsize. unfold deserialize. rewrite Hvarint.
    destruct (decide (NO_ERRORS = NO_ERRORS)); [| congruence].
    destruct (Z.geb_spec MAX_LENGTH availiable); [| lia].
    replace (clear g) with (clear f); [reflexivity |].
    unfold clear. rewrite !fill_replicate, Hsize. reflexivity.
Qed.

(** With a wire type other than [LENGTH_DELIMITED],
    [deserialize_check_type] returns [INVALID_WIRETYPE] before it touches
    anything: nothing is read from the transport, whatever it holds, and
    the field is not cleared. *)
Lemma deserialize_check_type_rejects (buffer : R) (wire_type : WireType)
    (f : FieldStringBytes) :
  wire_type <> LENGTH_DELIMITED ->
  deserialize_check_type MAX_LENGTH buffer wire_type f
  = (INVALID_WIRETYPE, f, buffer).
Proof.
  intros Htype. unfold deserialize_check_type.
  destruct (decide (LENGTH_DELIMITED = wire_type)); [congruence |].
  reflexivity.
Qed.

End DeserializeAnyTransport.

Lemma deserialize_keeps_no_earlier_content_witness :
  (forall i : nat,
     current_length_
       (deserialize 4 ([x03; x61] : ReadBuffer)
          (field_with 4 [x31; x32; x33; x34] (new_field 4))).1.2
       <= Z.of_nat i ->
     (i < length
            (data_
               (deserialize 4 ([x03; x61] : ReadBuffer)
                  (field_with 4 [x31; x32; x33; x34] (new_field 4))).1.2))%nat ->
     data_
       (deserialize 4 ([x03; x61] : ReadBuffer)
          (field_with 4 [x31; x32; x33; x34] (new_field 4))).1.2 !! i
     = Some x00)
  /\ deserialize 4 ([x03; x61] : ReadBuffer) (new_field 4)
     = deserialize 4 ([x03; x61] : ReadBuffer)
         (field_with 4 [x31; x32; x33; x34] (new_field 4)).
Proof.
  destruct (deserialize_keeps_no_earlier_content 4
              ([x03; x61] : ReadBuffer) [x61] 3
              (field_with 4 [x31; x32; x33; x34] (new_field 4)))
    as [Hzero Hsame].
  - reflexivity.
  - lia.
  - split; [exact Hzero |]. apply Hsame. reflexivity.
Defined.

(** ** Assignment between fields of different capacities *)

Lemma assign_from_fits (MAX_LENGTH : Z) (rhs f : FieldStringBytes) :
  0 <= current_length_ rhs <= Z.of_nat (length (data_ rhs)) ->
  current_length_ rhs <= MAX_LENGTH ->
  set_from MAX_LENGTH rhs f = (NO_ERRORS, assign_from MAX_LENGTH rhs f)
  /\ current_length_ (assign_from MAX_LENGTH rhs f) = current_length_ rhs
  /\ take (Z.to_nat (current_length_ rhs))
       (data_ (assign_from MAX_LENGTH rhs f))
     = take (Z.to_nat (current_length_ rhs)) (data_ rhs).
Proof.
  intros Hrhs Hfits.
  unfold set_from, assign_from, set, get_const_ptr, get_length.
  compare_cases; [| lia]. cbn. repeat split.
  unfold memcpy. rewrite take_app_length'; [reflexivity |].
  rewrite length_take. lia.
Qed.

(** X7.  Assigning a field of another capacity, by [set(rhs)] or by
    [operator=] of [FieldString] and [FieldBytes]: when the logical length
    of [rhs] is within the capacity of the target, [set] returns
    [NO_ERRORS] and the target gets the logical length and the elements of
    [rhs]; when it is not, [set] returns [ARRAY_FULL] and [operator=], which
    drops that result, leaves the target exactly as it was. *)
Theorem assignment_between_capacities (MAX_LENGTH : Z)
    (rhs f : FieldStringBytes) :
  0 <= current_length_ rhs <= Z.of_nat (length (data_ rhs)) ->
  (current_length_ rhs <= MAX_LENGTH ->
   set_from MAX_LENGTH rhs f = (NO_ERRORS, assign_from MAX_LENGTH rhs f)
   /\ get_length (assign_from MAX_LENGTH rhs f) = get_length rhs
   /\ take (Z.to_nat (get_length rhs)) (data_ (assign_from MAX_LENGTH rhs f))
      = take (Z.to_nat (get_length rhs)) (data_ rhs))
  /\ (MAX_LENGTH < current_length_ rhs ->
      set_from MAX_LENGTH rhs f = (ARRAY_FULL, f)
      /\ assign_from MAX_LENGTH rhs f = f).
Proof.
  intros Hrhs. split.
  - intros Hfits. now apply assign_from_fits.
  - intros Hover.
    unfold set_from, assign_from, set, get_const_ptr, get_length.
    compare_cases; [lia |]. split; reflexivity.
Qed.

Lemma assignment_between_capacities_witness :
  (set_from 4 (field_with 8 [x61; x62; x63] (new_field 8)) (new_field 4)
   = (NO_ERRORS,
      assign_from 4 (field_with 8 [x61; x62; x63] (new_field 8)) (new_field 4))
   /\ get_length
        (assign_from 4 (field_with 8 [x61; x62; x63] (new_field 8))
           (new_field 4))
      = get_length (field_with 8 [x61; x62; x63] (new_field 8))
   /\ take (Z.to_nat (get_length (field_with 8 [x61; x62; x63] (new_field 8))))
        (data_
           (assign_from 4 (field_with 8 [x61; x62; x63] (new_field 8))
              (new_field 4)))
      = take
          (Z.to_nat (get_length (field_with 8 [x61; x62; x63] (new_field 8))))
          (data_ (field_with 8 [x61; x62; x63] (new_field 8))))
  /\ (set_from 2 (field_with 8 [x61; x62; x63] (new_field 8))
        (field_with 2 [x31] (new_field 2))
      = (ARRAY_FULL, field_with 2 [x31] (new_field 2))
      /\ assign_from 2 (field_with 8 [x61; x62; x63] (new_field 8))
           (field_with 2 [x31] (new_field 2))
         = field_with 2 [x31] (new_field 2)).
Proof.
  split.
  - apply (assignment_between_capacities 4
             (field_with 8 [x61; x62; x63] (new_field 8)) (new_field 4));
      simpl; lia.
  - apply (assignment_between_capacities 2
             (field_with 8 [x61; x62; x63] (new_field 8))
             (field_with 2 [x31] (new_field 2)));
      simpl; lia.
Defined.

(** ** What reaches the wire *)

Section Wire.

Context {W : Type} `{!WriteBufferInterface W}.

Lemma serialize_logical (buffer : W) (f g : FieldStringBytes) :
  current_length_ f = current_length_ g ->
  take (Z.to_nat (current_length_ g)) (data_ f)
  = take (Z.to_nat (current_length_ g)) (data_ g) ->
  serialize buffer f = serialize buffer g.
Proof. intros Hlen Hdata. unfold serialize. now rewrite Hlen, Hdata. Qed.

Lemma serialize_with_id_logical (field_number : Z) (buffer : W)
    (optional : bool) (f g : FieldStringBytes) :
  current_length_ f = current_length_ g ->
  take (Z.to_nat (current_length_ g)) (data_ f)
  = take (Z.to_nat (current_length_ g)) (data_ g) ->
  serialize_with_id field_number buffer optional f
  = serialize_with_id field_number buffer optional g.
Proof.
  intros Hlen Hdata. unfold serialize_with_id. rewrite Hlen.
  destruct ((0 <? current_length_ g) || optional); [| reflexivity].
  destruct (current_length_ g <=? get_available_size buffer); [| reflexivity].
  destruct (SerializeVarint _ buffer) as [e1 buffer1].
  destruct (decide (NO_ERRORS = e1)).
  - destruct (SerializeVarint _ buffer1) as [e2 buffer2].
    destruct (bool_decide (NO_ERRORS = e2) && (0 <? current_length_ g));
      [now apply serialize_logical | reflexivity].
  - destruct (bool_decide (NO_ERRORS = e1) && (0 <? current_length_ g));
      [now apply serialize_logical | reflexivity].
Qed.

(** X8.  [serialize] and [serialize_with_id] read the logical length and
    the elements below it and nothing else: two fields that agree on these
    give the same result on every transport, whatever the rest of their
    storage holds and whatever their capacities are. *)
Theorem serialization_reads_logical_content (f g : FieldStringBytes) :
  current_length_ f = current_length_ g ->
  take (Z.to_nat (current_length_ g)) (data_ f)
  = take (Z.to_nat (current_length_ g)) (data_ g) ->
  (forall buffer : W, serialize buffer f = serialize buffer g)
  /\ (forall (field_number : Z) (buffer : W) (optional : bool),
        serialize_with_id field_number buffer optional f
        = serialize_with_id field_number buffer optional g).
Proof.
  intros Hlen Hdata. split.
  - intros buffer. now apply serialize_logical.
  - intros field_number buffer optional. now apply serialize_with_id_logical.
Qed.

(** X9.  A field assigned from a field of another capacity serializes as
    that field does: on every transport [serialize_with_id] gives the same
    result for the copy and for the original, provided the original fits
    the capacity of the copy. *)
Theorem assignment_preserves_serialization (MAX_LENGTH field_number : Z)
    (buffer : W) (optional : bool) (rhs f : FieldStringBytes) :
  0 <= current_length_ rhs <= Z.of_nat (length (data_ rhs)) ->
  current_length_ rhs <= MAX_LENGTH ->
  serialize_with_id field_number buffer optional
    (assign_from MAX_LENGTH rhs f)
  = serialize_with_id field_number buffer optional rhs.
Proof.
  intros Hrhs Hfits.
  destruct (assign_from_fits MAX_LENGTH rhs f Hrhs Hfits)
    as [_ [Hlen Hdata]].
  now apply serialize_with_id_logical.
Qed.

End Wire.

Lemma serialization_reads_logical_content_witness :
  (forall buffer : WriteBuffer,
     serialize buffer (set 4 [x61] 1 (field_with 4 [x31; x32] (new_field 4))).2
     = serialize buffer (field_with 2 [x61] (new_field 2)))
  /\ (forall (field_number : Z) (buffer : WriteBuffer) (optional : bool),
        serialize_with_id field_number buffer optional
          (set 4 [x61] 1 (field_with 4 [x31; x32] (new_field 4))).2
        = serialize_with_id field_number buffer optional
            (field_with 2 [x61] (new_field 2))).
Proof.
  apply (serialization_reads_logical_content
           (set 4 [x61] 1 (field_with 4 [x31; x32] (new_field 4))).2
           (field_with 2 [x61] (new_field 2)));
    reflexivity.
Defined.

Lemma assignment_preserves_serialization_witness :
  serialize_with_id 1 (empty_buffer 16) false
    (assign_from 4 (field_with 8 [x61; x62; x63] (new_field 8))
       (field_with 4 [x31; x32; x33; x34] (new_field 4)))
  = serialize_with_id 1 (empty_buffer 16) false
      (field_with 8 [x61; x62; x63] (new_field 8)).
Proof.
  apply (assignment_preserves_serialization 4 1 (empty_buffer 16) false
           (field_with 8 [x61; x62; x63] (new_field 8))
           (field_with 4 [x31; x32; x33; x34] (new_field 4)));
    simpl; lia.
Defined.

(** ** Text on the wire and back *)

Lemma c_str_terminated (chars rest : list byte) :
  x00 ∉ chars -> c_str (chars ++ x00 :: rest) = chars.
Proof.
  induction chars as [| c chars IH]; intros Hchars; cbn.
  - reflexivity.
  - apply not_elem_of_cons in Hchars as [Hc Hchars].
    destruct (decide (c = x00)); [congruence |].
    now rewrite IH.
Qed.

Lemma not_elem_of_take_c_str (n : nat) (str : list byte) :
  x00 ∉ take n (c_str str).
Proof.
  intros Hin. apply elem_of_take_inv in Hin.
  now apply c_str_no_terminator in Hin.
Qed.

Lemma FieldString_set_storage (MAX_LENGTH : Z) (str : list byte)
    (f : FieldStringBytes) :
  0 <= MAX_LENGTH < 2 ^ 32 -> strlen str < 2 ^ 32 ->
  FieldString_set MAX_LENGTH (Some str) f
  = {| current_length_ := Z.min (strlen str) MAX_LENGTH;
       data_ :=
         text_storage MAX_LENGTH (Z.min (strlen str) MAX_LENGTH)
           (c_str str) (data_ f) |}.
Proof.
  intros HM Hstr.
  assert (Hlen : 0 <= strlen str) by (unfold strlen; lia).
  unfold FieldString_set, set_length, get_length, text_storage.
  cbn [current_length_ data_].
  rewrite (uint32_small (strlen str)) by (unfold is_uint32; lia).
  f_equal. compare_cases; try lia.
  - no_wrap.
    replace (Z.min (strlen str) MAX_LENGTH) with (strlen str) by lia.
    rewrite strncpy_with_terminator. unfold strlen.
    rewrite Nat2Z.id, take_ge by lia. reflexivity.
  - apply strncpy_without_terminator. lia.
Qed.

(** The storage after a C string was assigned starts with the stored
    characters. *)
Lemma text_storage_prefix (MAX_LENGTH m : Z) (chars old : list byte) :
  0 <= m <= Z.of_nat (length chars) ->
  exists rest,
    text_storage MAX_LENGTH m chars old = take (Z.to_nat m) chars ++ rest
    /\ (m < MAX_LENGTH -> exists rest', rest = x00 :: rest').
Proof.
  intros Hm. unfold text_storage. compare_cases.
  - eexists. split; [reflexivity |]. intros _. eexists. reflexivity.
  - eexists. split; [reflexivity |]. lia.
Qed.

(** X10.  A C string shorter than the capacity can be read back from the
    storage as a C string: after the assignment the bytes of the storage
    before its first terminator are the characters of the string, and their
    number is [get_length()]. *)
Theorem text_reads_back_as_c_string (MAX_LENGTH : Z) (str : list byte)
    (f : FieldStringBytes) :
  0 <= MAX_LENGTH < 2 ^ 32 -> strlen str < MAX_LENGTH ->
  c_str (data_ (FieldString_set MAX_LENGTH (Some str) f)) = c_str str
  /\ strlen (data_ (FieldString_set MAX_LENGTH (Some str) f))
     = get_length (FieldString_set MAX_LENGTH (Some str) f).
Proof.
  intros HM Hstr.
  assert (Hlen : 0 <= strlen str) by (unfold strlen; lia).
  rewrite FieldString_set_storage by lia.
  unfold get_length. cbn [current_length_ data_].
  replace (Z.min (strlen str) MAX_LENGTH) with (strlen str) by lia.
  destruct (text_storage_prefix MAX_LENGTH (strlen str) (c_str str) (data_ f))
    as [rest [Hstore Hterm]]; [unfold strlen; lia |].
  destruct (Hterm Hstr) as [rest' ->].
  rewrite Hstore.
  assert (Hread :
    c_str (take (Z.to_nat (strlen str)) (c_str str) ++ x00 :: rest')
    = c_str str).
  { unfold strlen. rewrite Nat2Z.id, take_ge by lia.
    apply c_str_terminated, c_str_no_terminator. }
  split; [exact Hread |].
  unfold strlen at 1. rewrite Hread. reflexivity.
Qed.

Lemma text_reads_back_as_c_string_witness :
  c_str
    (data_
       (FieldString_set 6 (Some [x61; x62; x63; x00; x64])
          (field_with 6 [x31; x32; x33; x34; x35; x36] (new_field 6))))
  = c_str [x61; x62; x63; x00; x64]
  /\ strlen
       (data_
          (FieldString_set 6 (Some [x61; x62; x63; x00; x64])
             (field_with 6 [x31; x32; x33; x34; x35; x36] (new_field 6))))
     = get_length
         (FieldString_set 6 (Some [x61; x62; x63; x00; x64])
            (field_with 6 [x31; x32; x33; x34; x35; x36] (new_field 6))).
Proof.
  apply (text_reads_back_as_c_string 6 [x61; x62; x63; x00; x64]
           (field_with 6 [x31; x32; x33; x34; x35; x36] (new_field 6))).
  - lia.
  - vm_compute. reflexivity.
Defined.

(** The bytes [serialize_with_id] puts into an empty transport with room for
    them, for a field in any state. *)
Lemma wire_bytes_logical (field_number size : Z) (optional : bool)
    (f : FieldStringBytes) :
  0 <= current_length_ f <= Z.of_nat (length (data_ f)) ->
  0 < current_length_ f \/ optional = true ->
  Z.of_nat (length (encode_varint (MakeTag field_number LENGTH_DELIMITED)))
    + Z.of_nat (length (encode_varint (current_length_ f)))
    + current_length_ f <= size ->
  serialize_with_id field_number (empty_buffer size) optional f
  = (NO_ERRORS,
     {| written :=
          encode_varint (MakeTag field_number LENGTH_DELIMITED)
            ++ encode_varint (current_length_ f)
            ++ take (Z.to_nat (current_length_ f)) (data_ f);
        max_size := size |}).
Proof.
  intros Hf Hemit Hroom.
  set (payload := take (Z.to_nat (current_length_ f)) (data_ f)).
  assert (Hpayload : Z.of_nat (length payload) = current_length_ f)
    by (subst payload; rewrite length_take; lia).
  rewrite (serialize_with_id_logical field_number (empty_buffer size) optional f
             {| current_length_ := Z.of_nat (length payload);
                data_ := payload ++ [] |}).
  - rewrite wire_bytes_entry by (rewrite Hpayload; assumption).
    rewrite Hpayload. reflexivity.
  - cbn. lia.
  - cbn [current_length_ data_]. rewrite Hpayload, app_nil_r.
    subst payload. rewrite take_take, Nat.min_id. reflexivity.
Qed.

(** Receiving a well-formed entry. *)
Lemma receive_entry (MAX_LENGTH tag : Z) (payload : list byte) :
  is_uint32 tag ->
  Z.of_nat (length payload) <= MAX_LENGTH -> MAX_LENGTH < 2 ^ 32 ->
  receive MAX_LENGTH
    (encode_varint tag ++ encode_varint (Z.of_nat (length payload)) ++ payload)
  = (NO_ERRORS,
     {| current_length_ := Z.of_nat (length payload);
        data_ :=
          payload ++ replicate (Z.to_nat MAX_LENGTH - length payload) x00 |},
     []).
Proof.
  intros Htag HL HM. unfold receive.
  rewrite DeserializeVarint_encode by exact Htag.
  unfold deserialize_check_type.
  destruct (decide (LENGTH_DELIMITED = LENGTH_DELIMITED)); [| congruence].
  destruct (decide (NO_ERRORS = NO_ERRORS)); [| congruence].
  rewrite (deserialize_list MAX_LENGTH (Z.of_nat (length payload)) _ payload).
  - rewrite Nat2Z.id, Nat.min_id, take_ge, drop_ge by lia.
    destruct (decide (Z.of_nat (length payload) <> Z.of_nat (length payload)));
      [congruence | reflexivity].
  - apply DeserializeVarint_encode. unfold is_uint32. lia.
  - cbn. rewrite length_replicate. lia.
  - exact HM.
  - lia.
Qed.

(** X11.  A field in any state, sent with [serialize_with_id] and received
    by a default constructed field of any capacity that fits its logical
    length, arrives with the same logical length and the same elements
    below it; the receiver's storage is zero beyond them, and the receiver
    consumes every byte that was written. *)
Theorem receive_reproduces_logical_content (MAX_LENGTH field_number size : Z)
    (optional : bool) (f : FieldStringBytes) :
  0 <= current_length_ f <= Z.of_nat (length (data_ f)) ->
  current_length_ f <= MAX_LENGTH -> MAX_LENGTH < 2 ^ 32 ->
  0 < current_length_ f \/ optional = true ->
  Z.of_nat (length (encode_varint (MakeTag field_number LENGTH_DELIMITED)))
    + Z.of_nat (length (encode_varint (current_length_ f)))
    + current_length_ f <= size ->
  receive MAX_LENGTH (wire_bytes field_number size optional f)
  = (NO_ERRORS,
     {| current_length_ := current_length_ f;
        data_ :=
          take (Z.to_nat (current_length_ f)) (data_ f)
            ++ replicate (Z.to_nat MAX_LENGTH - Z.to_nat (current_length_ f))
                 x00 |},
     []).
Proof.
  intros Hf Hfits HM Hemit Hroom. unfold wire_bytes.
  rewrite wire_bytes_logical by assumption. cbn [snd written].
  set (payload := take (Z.to_nat (current_length_ f)) (data_ f)).
  assert (Hpayload : Z.of_nat (length payload) = current_length_ f)
    by (subst payload; rewrite length_take; lia).
  rewrite <- Hpayload at 1.
  rewrite receive_entry by (first [apply MakeTag_uint32 | lia]).
  rewrite Hpayload.
  replace (length payload) with (Z.to_nat (current_length_ f)) by lia.
  reflexivity.
Qed.

Lemma receive_reproduces_logical_content_witness :
  receive 3
    (wire_bytes 1 16 false
       (set 8 [x61; x62] 2
          (field_with 8 [x31; x32; x33; x34] (new_field 8))).2)
  = (NO_ERRORS, {| current_length_ := 2; data_ := [x61; x62; x00] |}, []).
Proof.
  apply (receive_reproduces_logical_content 3 1 16 false
           (set 8 [x61; x62] 2
              (field_with 8 [x31; x32; x33; x34] (new_field 8))).2).
  - simpl. lia.
  - simpl. lia.
  - lia.
  - left. simpl. lia.
  - vm_compute. discriminate.
Defined.

(** The first [k] elements [strncpy] writes are characters of the string,
    as long as the string has that many. *)
Lemma take_strncpy (dst src : list byte) (n : Z) (k : nat) :
  (k <= Z.to_nat n)%nat -> (k <= length (c_str src))%nat ->
  take k (strncpy dst src n) = take k (c_str src).
Proof.
  intros Hn Hsrc. unfold strncpy.
  rewrite take_app_le
    by (rewrite length_take, length_app, length_replicate; lia).
  rewrite take_take.
  replace (k `min` Z.to_nat n)%nat with k by lia.
  apply take_app_le. exact Hsrc.
Qed.

(** The logical content after a C string was assigned, for every string:
    the length is the [uint32_t] value of [strlen] clamped to the capacity,
    and the elements below it are the first characters of the string. *)
Lemma FieldString_set_logical (MAX_LENGTH : Z) (str : list byte)
    (f : FieldStringBytes) :
  0 <= MAX_LENGTH < 2 ^ 32 ->
  let m := Z.min (uint32 (strlen str)) MAX_LENGTH in
  0 <= m <= strlen str
  /\ current_length_ (FieldString_set MAX_LENGTH (Some str) f) = m
  /\ take (Z.to_nat m) (data_ (FieldString_set MAX_LENGTH (Some str) f))
     = take (Z.to_nat m) (c_str str).
Proof.
  intros HM m.
  assert (Hlen : 0 <= strlen str) by (unfold strlen; lia).
  assert (Hwrap : 0 <= uint32 (strlen str) <= strlen str).
  { unfold uint32. split; [apply Z.mod_pos_bound; lia |].
    apply Z.mod_le; lia. }
  assert (Hm : 0 <= m <= strlen str) by (subst m; lia).
  split; [exact Hm |]. split; [reflexivity |].
  unfold FieldString_set, set_length, get_length.
  cbn [current_length_ data_]. fold m.
  apply take_strncpy; [| unfold strlen in Hm; lia].
  compare_cases; [no_wrap |]; lia.
Qed.

(** X12.  After a C string was assigned, [serialize_with_id] sends as
    payload exactly the characters the logical length covers, the first
    [m] characters of the string with [m] the [uint32_t] value of its
    length clamped to the capacity ([min(S, capacity)] for a string of
    fewer than [2 ^ 32] characters): the terminator the assignment may have
    stored never reaches the wire.  A default constructed field with a
    capacity above [m] receives them followed by zeros, so that its storage
    reads as a C string of exactly these characters. *)
Theorem text_is_sent_without_terminator (MAX_LENGTH RX_LENGTH : Z)
    (field_number size : Z) (optional : bool) (str : list byte)
    (f : FieldStringBytes) :
  0 <= MAX_LENGTH < 2 ^ 32 ->
  let m := Z.min (uint32 (strlen str)) MAX_LENGTH in
  let chars := take (Z.to_nat m) (c_str str) in
  0 < m \/ optional = true ->
  Z.of_nat (length (encode_varint (MakeTag field_number LENGTH_DELIMITED)))
    + Z.of_nat (length (encode_varint m)) + m <= size ->
  wire_bytes field_number size optional
    (FieldString_set MAX_LENGTH (Some str) f)
  = encode_varint (MakeTag field_number LENGTH_DELIMITED)
      ++ encode_varint m ++ chars
  /\ (m < RX_LENGTH < 2 ^ 32 ->
      (receive RX_LENGTH
         (wire_bytes field_number size optional
            (FieldString_set MAX_LENGTH (Some str) f))).1.1 = NO_ERRORS
      /\ c_str
           (data_
              (receive RX_LENGTH
                 (wire_bytes field_number size optional
                    (FieldString_set MAX_LENGTH (Some str) f))).1.2)
         = chars).
Proof.
  intros HM m chars Hemit Hroom.
  destruct (FieldString_set_logical MAX_LENGTH str f HM)
    as [Hm [Hlength Hlogical]].
  fold m in Hm, Hlength, Hlogical. fold chars in Hlogical.
  assert (Hchars : Z.of_nat (length chars) = m).
  { subst chars. rewrite length_take. unfold strlen in Hm. lia. }
  assert (Hwire :
    wire_bytes field_number size optional
      (FieldString_set MAX_LENGTH (Some str) f)
    = encode_varint (MakeTag field_number LENGTH_DELIMITED)
        ++ encode_varint m ++ chars).
  { unfold wire_bytes.
    rewrite (serialize_with_id_logical field_number (empty_buffer size)
               optional _
               {| current_length_ := Z.of_nat (length chars);
                  data_ := chars ++ [] |}).
    - rewrite wire_bytes_entry by (rewrite Hchars; assumption).
      rewrite Hchars. reflexivity.
    - cbn [current_length_]. congruence.
    - cbn [current_length_ data_]. rewrite Hchars, Hlogical, app_nil_r.
      subst chars. rewrite take_take, Nat.min_id. reflexivity. }
  split; [exact Hwire |].
  intros HRX. rewrite Hwire.
  assert (Hreceive :
    receive RX_LENGTH
      (encode_varint (MakeTag field_number LENGTH_DELIMITED)
         ++ encode_varint m ++ chars)
    = (NO_ERRORS,
       {| current_length_ := m;
          data_ :=
            chars ++ replicate (Z.to_nat RX_LENGTH - length chars) x00 |},
       [])).
  { rewrite <- Hchars at 1.
    rewrite receive_entry by (first [apply MakeTag_uint32 | lia]).
    rewrite Hchars. reflexivity. }
  rewrite Hreceive. cbn [fst snd data_]. split; [reflexivity |].
  destruct (Z.to_nat RX_LENGTH - length chars)%nat as [| k] eqn:Hk; [lia |].
  cbn [replicate]. apply c_str_terminated.
  subst chars. apply not_elem_of_take_c_str.
Qed.

Lemma text_is_sent_without_terminator_witness :
  wire_bytes 1 16 false
    (FieldString_set 4 (Some [x61; x62; x63; x00])
       (field_with 4 [x31; x32; x33; x34] (new_field 4)))
  = encode_varint (MakeTag 1 LENGTH_DELIMITED)
      ++ encode_varint (Z.min (uint32 (strlen [x61; x62; x63; x00])) 4)
      ++ take (Z.to_nat (Z.min (uint32 (strlen [x61; x62; x63; x00])) 4))
           (c_str [x61; x62; x63; x00])
  /\ (receive 5
        (wire_bytes 1 16 false
           (FieldString_set 4 (Some [x61; x62; x63; x00])
              (field_with 4 [x31; x32; x33; x34] (new_field 4))))).1.1
     = NO_ERRORS
  /\ c_str
       (data_
          (receive 5
             (wire_bytes 1 16 false
                (FieldString_set 4 (Some [x61; x62; x63; x00])
                   (field_with 4 [x31; x32; x33; x34] (new_field 4))))).1.2)
     = take (Z.to_nat (Z.min (uint32 (strlen [x61; x62; x63; x00])) 4))
         (c_str [x61; x62; x63; x00]).
Proof.
  destruct (text_is_sent_without_terminator 4 5 1 16 false
              [x61; x62; x63; x00]
              (field_with 4 [x31; x32; x33; x34] (new_field 4)))
    as [Hwire Hreceive].
  - lia.
  - left. vm_compute. reflexivity.
  - vm_compute. discriminate.
  - split; [exact Hwire |]. apply Hreceive. vm_compute. split; reflexivity.
Defined.

(** ** Indexed writes *)

(** Indexed writes that continue a content [pre] already in place. *)
Lemma write_from_append (MAX_LENGTH : Z) (values : list byte) :
  forall pre post : list byte,
    Z.of_nat (length pre + length post) = MAX_LENGTH ->
    MAX_LENGTH < 2 ^ 32 ->
    (length values <= length post)%nat ->
    write_from MAX_LENGTH (Z.of_nat (length pre)) values
      {| current_length_ := Z.of_nat (length pre); data_ := pre ++ post |}
    = {| current_length_ := Z.of_nat (length pre + length values);
         data_ := pre ++ values ++ drop (length values) post |}.
Proof.
  induction values as [| v values IH]; intros pre post Hsize HM Hfits.
  - cbn. rewrite Nat.add_0_r. reflexivity.
  - destruct post as [| p post]; [cbn in Hfits; lia |].
    cbn [length] in Hsize, Hfits.
    cbn [write_from]. rewrite get_clamped by lia.
    cbn [current_length_ data_].
    replace (Z.min (Z.of_nat (length pre)) (MAX_LENGTH - 1))
      with (Z.of_nat (length pre)) by lia.
    destruct (Z.geb_spec (Z.of_nat (length pre)) (Z.of_nat (length pre)));
      [| lia].
    unfold assign. cbn [current_length_ data_].
    rewrite Nat2Z.id, insert_app_r_alt, Nat.sub_diag by lia.
    cbn [insert list_insert]. no_wrap.
    replace (Z.of_nat (length pre) + 1) with (Z.of_nat (length (pre ++ [v])))
      by (rewrite length_app; cbn; lia).
    replace (pre ++ v :: post) with ((pre ++ [v]) ++ post)
      by (rewrite <- app_assoc; reflexivity).
    rewrite IH by (rewrite ?length_app; cbn; lia).
    rewrite length_app. cbn [length drop].
    rewrite <- app_assoc. cbn [app]. do 2 f_equal. lia.
Qed.

(** X13.  Building the content by indexed writes is the same as [set]: on a
    cleared field, storing the elements of [values] one by one through
    [operator[]] at the indices 0, 1, 2, ... leaves the field exactly as
    [set(values, length)] does, logical length and storage alike, as long as
    there are no more of them than the capacity. *)
Theorem indexed_writes_equal_set (MAX_LENGTH : Z) (values : list byte)
    (f : FieldStringBytes) :
  0 < MAX_LENGTH < 2 ^ 32 ->
  Z.of_nat (length (data_ f)) = MAX_LENGTH ->
  Z.of_nat (length values) <= MAX_LENGTH ->
  write_from MAX_LENGTH 0 values (clear f)
  = (set MAX_LENGTH values (Z.of_nat (length values)) (clear f)).2.
Proof.
  intros HM Hsize Hfits.
  unfold clear, set. rewrite fill_replicate.
  destruct (Z.geb_spec MAX_LENGTH (Z.of_nat (length values))); [| lia].
  cbn [snd current_length_ data_].
  pose proof (write_from_append MAX_LENGTH values []
                (replicate (length (data_ f)) x00)) as Hwrite.
  cbn [app length] in Hwrite. change (Z.of_nat 0) with 0 in Hwrite.
  rewrite Hwrite by (rewrite ?length_replicate; lia).
  unfold memcpy. rewrite Nat2Z.id, take_ge by lia. reflexivity.
Qed.

Lemma indexed_writes_equal_set_witness :
  write_from 4 0 [x61; x62; x63]
    (clear (field_with 4 [x31; x32; x33; x34] (new_field 4)))
  = (set 4 [x61; x62; x63] (Z.of_nat (length [x61; x62; x63]))
       (clear (field_with 4 [x31; x32; x33; x34] (new_field 4)))).2.
Proof.
  apply (indexed_writes_equal_set 4 [x61; x62; x63]
           (field_with 4 [x31; x32; x33; x34] (new_field 4))).
  - lia.
  - reflexivity.
  - simpl. lia.
Defined.
